(** * Enzyme-kinetics and plate-grid notebooks: a shallow embedding

    The notebooks of the repository are short numerical scripts on top of
    numpy, pandas and scipy.  This development embeds

    - [michaelis_menten], [simulate_absorbance] and the data generators of
      [content/enzyme_kinetics_simulator.ipynb],
    - [calculate_initial_velocities] and the [curve_fit] call of the
      CSV notebook,
    - the [heatmap_data] pivots of the plate notebook,

    and proves the properties stated about them.

    Number model.  The pipeline is embedded over [pyfloat]: either a real
    number ([Fin r]) or a non-finite value ([NonFin], standing for [inf],
    [-inf] and [nan]).  Arithmetic on finite values is exact real arithmetic,
    written in the order the code evaluates it; division by zero follows
    numpy (a non-finite result and a warning, no exception).  This layer
    carries what does not depend on rounding: which rows go where, which
    exception is raised, which expression is evaluated, and what the result
    is in exact arithmetic.

    What rounding does is stated on the second layer, [Binary64]: the scalar
    steps ([michaelis_menten], [np.mean], [np.std]) on IEEE 754 binary64
    numbers with the processor's operations.  A statement of exact equality
    between computed floats belongs there; where the exact layer proves such
    an equality, it is one of exact arithmetic and is labelled so. *)

From Stdlib Require Import PrimFloat SpecFloat FloatOps.
From Stdlib Require Import String Ascii.
From Stdlib Require Import Reals Lra Lia Psatz ZArith Bool List Permutation Sorted.
Import ListNotations.
Open Scope R_scope.

(* ================================================================= *)
(** * Python values, exceptions *)

Module Py.

(** A numpy float64, up to rounding. *)
Inductive pyfloat : Type :=
| Fin (r : R)
| NonFin.

(** [inf] and [nan] absorb under [+], [-] and [*] once they are lumped
    together: [inf - inf], [0 * inf] are [nan], everything else stays
    non-finite. *)
Definition pyadd (a b : pyfloat) : pyfloat :=
  match a, b with
  | Fin x, Fin y => Fin (x + y)
  | _, _ => NonFin
  end.

Definition pysub (a b : pyfloat) : pyfloat :=
  match a, b with
  | Fin x, Fin y => Fin (x - y)
  | _, _ => NonFin
  end.

Definition pymul (a b : pyfloat) : pyfloat :=
  match a, b with
  | Fin x, Fin y => Fin (x * y)
  | _, _ => NonFin
  end.

(** numpy true division by a finite divisor [d]: [x / 0] is [inf] or [nan]
    (with a RuntimeWarning), never an exception. *)
Definition pydiv (a : pyfloat) (d : R) : pyfloat :=
  match a with
  | Fin x => if Req_dec_T d 0 then NonFin else Fin (x / d)
  | NonFin => NonFin
  end.

(** [np.sqrt]: [nan] on a negative argument. *)
Definition pysqrt (a : pyfloat) : pyfloat :=
  match a with
  | Fin x => if Rlt_dec x 0 then NonFin else Fin (sqrt x)
  | NonFin => NonFin
  end.

Definition is_finite (a : pyfloat) : bool :=
  match a with Fin _ => true | NonFin => false end.

(** The exception classes: the built-in ones that numpy and scipy raise on
    the paths modelled here, and the four classes of the error taxonomy. *)
Inductive exn : Type :=
| TypeError
| ValueError
| RuntimeError
| LinAlgError
| ConfigurationError
| InsufficientDataError
| UnderdeterminedFitError
| FitConvergenceError.

(** A computation that returns a value or raises. *)
Definition res (A : Type) : Type := (exn + A)%type.

Definition ret {A} (a : A) : res A := inr a.
Definition raise {A} (e : exn) : res A := inl e.

Definition bind {A B} (c : res A) (k : A -> res B) : res B :=
  match c with
  | inl e => inl e
  | inr a => k a
  end.

(** A [for] loop that appends one result per element, stopping at the first
    exception. *)
Fixpoint for_each {A B} (f : A -> res B) (l : list A) : res (list B) :=
  match l with
  | [] => ret []
  | a :: t =>
      bind (f a) (fun b =>
      bind (for_each f t) (fun bs =>
      ret (b :: bs)))
  end.

Section Sorted.
Context {A : Type} (leb : A -> A -> bool).

Fixpoint insert_sorted (a : A) (l : list A) : list A :=
  match l with
  | [] => [a]
  | b :: t => if leb a b then a :: l else b :: insert_sorted a t
  end.

(** The built-in [sorted]: the elements in ascending order. *)
Fixpoint sorted (l : list A) : list A :=
  match l with
  | [] => []
  | a :: t => insert_sorted a (sorted t)
  end.

End Sorted.

(** [list.index]-like lookup: the position of the first occurrence of [a],
    if any. *)
Fixpoint position {A} (eqb : A -> A -> bool) (a : A) (l : list A) : option nat :=
  match l with
  | [] => None
  | b :: t =>
      if eqb a b then Some O
      else match position eqb a t with
           | Some i => Some (S i)
           | None => None
           end
  end.

End Py.
Import Py.

Notation "x <- c ;; k" := (bind c (fun x => k))
  (at level 61, c at next level, right associativity).

(* ================================================================= *)
(** * The numpy functions the notebooks call *)

Module NumPy.

(** [np.sum] of a float array. *)
Definition rsum (l : list R) : R := fold_right Rplus 0 l.

Definition pysum (l : list pyfloat) : pyfloat := fold_right pyadd (Fin 0) l.

(** [np.linspace(start, stop, num)] with the default [endpoint=True]:
    [arange(num) * step + start], the last sample overwritten by [stop]. *)
Definition linspace (start stop : R) (num : nat) : list R :=
  match num with
  | O => []
  | S O => [start]
  | S d =>
      map (fun i => INR i * ((stop - start) / INR d) + start) (seq 0 d)
        ++ [stop]
  end.

(** The global [np.random] state: the standard-normal draws still to come. *)
Definition RandomState : Type := nat -> R.

(** [np.random.normal(loc, scale, size=n)]: [loc + scale * z] for the next
    [n] standard-normal draws [z]; [ValueError] when [scale < 0]. *)
Definition normal (loc scale : R) (n : nat) (st : RandomState)
  : res (list R * RandomState) :=
  if Rlt_dec scale 0 then raise ValueError
  else ret (map (fun i => loc + scale * st i) (seq 0 n),
            fun i => st (n + i)%nat).

(** Code that draws from the global generator threads its state and may
    raise. *)
Definition rand (A : Type) : Type := RandomState -> res (A * RandomState).

Definition rand_ret {A} (a : A) : rand A := fun st => ret (a, st).

Definition rand_bind {A B} (c : rand A) (k : A -> rand B) : rand B :=
  fun st =>
    match c st with
    | inl e => inl e
    | inr (a, st') => k a st'
    end.

Fixpoint rand_for_each {A B} (f : A -> rand B) (l : list A) : rand (list B) :=
  match l with
  | [] => rand_ret []
  | a :: t =>
      rand_bind (f a) (fun b =>
      rand_bind (rand_for_each f t) (fun bs =>
      rand_ret (b :: bs)))
  end.

(** The finite values of an array, when all of them are finite. *)
Fixpoint all_finite (l : list pyfloat) : option (list R) :=
  match l with
  | [] => Some []
  | Fin r :: t =>
      match all_finite t with
      | Some rs => Some (r :: rs)
      | None => None
      end
  | NonFin :: _ => None
  end.

(** [np.polyfit(x, y, 1)], returning [(slope, intercept)], in exact
    arithmetic.

    numpy builds the Vandermonde matrix [[x, 1]], divides each column by its
    Euclidean norm and calls [lstsq] (LAPACK [gelsd]), which returns the
    least-squares solution of minimum norm.  The cases below are those of
    the exact computation; the LAPACK routine works in binary64, so its
    slopes are rounded, its rank decision compares singular values with
    [rcond] rather than a determinant with 0, and a sum of squares that
    underflows to 0 counts as zero.  Statements that depend on where exactly
    these boundaries lie are outside this model.
    - an empty [x], or [x] and [y] of different lengths: [TypeError];
    - all [x] zero: the first column is [0/0 = nan] and the SVD does not
      converge: [LinAlgError];
    - a non-finite [y]: the [nan]s propagate to both coefficients;
    - all [x] equal to some [x0 <> 0] (rank 1, RankWarning): the minimum-norm
      solution of the scaled system, slope [mean y / (2 x0)] and intercept
      [mean y / 2];
    - otherwise (two distinct abscissae): ordinary least squares. *)
Definition polyfit (x : list R) (y : list pyfloat) : res (pyfloat * pyfloat) :=
  match x with
  | [] => raise TypeError
  | x0 :: _ =>
      if negb (Nat.eqb (length x) (length y)) then raise TypeError
      else
        let n := INR (length x) in
        let sx := rsum x in
        let sxx := rsum (map (fun a => a * a) x) in
        if Req_dec_T sxx 0 then raise LinAlgError
        else
          match all_finite y with
          | None => ret (NonFin, NonFin)
          | Some yr =>
              let sy := rsum yr in
              let sxy := rsum (map (fun p => fst p * snd p) (combine x yr)) in
              let D := n * sxx - sx * sx in
              if Req_dec_T D 0 then
                ret (Fin (sy / n / (2 * x0)), Fin (sy / n / 2))
              else
                let slope := (n * sxy - sx * sy) / D in
                ret (Fin slope, Fin ((sy - slope * sx) / n))
          end
  end.

(** [np.mean] of a list of floats: [sum / n], [nan] on the empty list; the
    exact value (the binary64 one is [Binary64.mean]). *)
Definition mean (l : list pyfloat) : pyfloat :=
  pydiv (pysum l) (INR (length l)).

(** [np.std(l, ddof=ddof)]: the square root of
    [sum (|x - mean|^2) / max (n - ddof, 0)]; the exact value (the binary64
    one is [Binary64.std_ddof]). *)
Definition std_ddof (ddof : nat) (l : list pyfloat) : pyfloat :=
  let m := mean l in
  let sq := map (fun x => pymul (pysub x m) (pysub x m)) l in
  pysqrt (pydiv (pysum sq) (INR (length l - ddof))).

(** [np.std(l)]: [ddof] defaults to [0]. *)
Definition std (l : list pyfloat) : pyfloat := std_ddof 0 l.

(** The order of floats, as a test. *)
Definition Rleb (a b : R) : bool := if Rle_dec a b then true else false.

(** [np.min] and [np.max] of an array: [ValueError] on an empty one
    (a reduction without identity). *)
Definition amin (a : list R) : res R :=
  match a with
  | [] => raise ValueError
  | x :: t => ret (fold_left (fun m y => if Rlt_dec y m then y else m) t x)
  end.

Definition amax (a : list R) : res R :=
  match a with
  | [] => raise ValueError
  | x :: t => ret (fold_left (fun m y => if Rlt_dec m y then y else m) t x)
  end.

(** [np.percentile(a, q)] for a whole number [q], with the default linear
    interpolation: [ValueError] unless [0 <= q <= 100]; [nan] on an empty
    array; otherwise the array is sorted, the virtual index is
    [q / 100 * (n - 1)], and the result lies between the two order
    statistics around it, at the fractional part of the index. *)
Definition percentile (a : list R) (q : nat) : res pyfloat :=
  if (100 <? q)%nat then raise ValueError
  else
    match a with
    | [] => ret NonFin
    | _ :: _ =>
        let s := sorted Rleb a in
        let n := length a in
        let k := (q * (n - 1))%nat in
        let lo := (k / 100)%nat in
        let hi := Nat.min (lo + 1) (n - 1) in
        let g := INR (k mod 100) / 100 in
        ret (Fin (nth lo s 0 + g * (nth hi s 0 - nth lo s 0)))
    end.

End NumPy.
Import NumPy.

(* ================================================================= *)
(** * pandas helpers *)

Module Pandas.

Section Unique.
Context {A : Type} (eq_dec : forall a b : A, {a = b} + {a <> b}).

(** [Series.unique()]: the distinct values in order of first appearance. *)
Fixpoint unique (l : list A) : list A :=
  match l with
  | [] => []
  | a :: t => a :: remove eq_dec a (unique t)
  end.

End Unique.

(** The boolean mask [column == v] on floats and on ints. *)
Definition Reqb (a b : R) : bool := if Req_dec_T a b then true else false.

End Pandas.
Import Pandas.

(* ================================================================= *)
(** * The scalar steps as the processor runs them *)

(** numpy's [float64] is IEEE 754 binary64.  This module repeats, on
    binary64 numbers with the processor's operations (round to nearest, ties
    to even; [inf] on overflow, [nan] for [0 / 0], no exception), the steps of
    the notebooks that are plain float arithmetic.  It is the reference for
    everything that depends on rounding; [np.polyfit] and [curve_fit] run
    LAPACK and MINPACK routines and have no counterpart here. *)
Module Binary64.

Local Open Scope float_scope.

(** [def michaelis_menten(S, V_max, K_m): return (V_max * S) / (K_m + S)] on
    [float64] operands: each of the three operations rounds. *)
Definition michaelis_menten (S V_max K_m : float) : float :=
  (V_max * S) / (K_m + S).

(** The eight partial sums of numpy's unrolled loop: [r[j] += a[i + j]]. *)
Fixpoint add_lanes (r a : list float) : list float :=
  match r, a with
  | x :: r', y :: a' => (x + y) :: add_lanes r' a'
  | _, _ => r
  end.

(** The main loop of a block: whole groups of eight are added to the eight
    accumulators; what is left (fewer than eight) is returned with them. *)
Fixpoint unrolled (fuel : nat) (r a : list float) : list float * list float :=
  match fuel with
  | O => (r, a)
  | Datatypes.S fuel' =>
      if (8 <=? length a)%nat
      then unrolled fuel' (add_lanes r (firstn 8 a)) (skipn 8 a)
      else (r, a)
  end.

(** numpy's pairwise summation of a contiguous array of [n] numbers:
    - [n < 8]: a plain loop from the left;
    - [n <= 128]: eight accumulators, combined as
      [((r0 + r1) + (r2 + r3)) + ((r4 + r5) + (r6 + r7))], then the rest
      added one by one;
    - otherwise the array is cut at [n / 2] rounded down to a multiple of 8
      and the sums of the two parts are added. *)
Fixpoint pairwise_sum (fuel : nat) (a : list float) : float :=
  let n := length a in
  if (n <? 8)%nat then fold_left PrimFloat.add a 0
  else if (n <=? 128)%nat then
    let (r, rest) := unrolled n (firstn 8 a) (skipn 8 a) in
    let res :=
      ((nth 0 r 0 + nth 1 r 0) + (nth 2 r 0 + nth 3 r 0))
      + ((nth 4 r 0 + nth 5 r 0) + (nth 6 r 0 + nth 7 r 0)) in
    fold_left PrimFloat.add rest res
  else
    match fuel with
    | O => 0
    | Datatypes.S fuel' =>
        let n2 := (n / 2 - (n / 2) mod 8)%nat in
        pairwise_sum fuel' (firstn n2 a) + pairwise_sum fuel' (skipn n2 a)
    end.

(** [np.sum] ([np.add.reduce]) of a [float64] array: the accumulator starts
    at the identity [0] and receives the pairwise sum. *)
Definition sum (a : list float) : float := 0 + pairwise_sum (length a) a.

(** The number of elements, as the [float64] it is divided by. *)
Definition count (n : nat) : float := of_uint63 (Uint63Axioms.of_Z (Z.of_nat n)).

(** [np.mean(a)]: [sum / n]; [nan] for an empty array. *)
Definition mean (a : list float) : float := sum a / count (length a).

(** [np.std(a, ddof=ddof)]: the mean is subtracted, the deviations are
    squared ([x * x]), summed, divided by [max(n - ddof, 0)], and the square
    root is taken. *)
Definition std_ddof (ddof : nat) (a : list float) : float :=
  let arrmean := sum a / count (length a) in
  let x := map (fun v => v - arrmean) a in
  let x := map (fun d => d * d) x in
  PrimFloat.sqrt (sum x / count (length a - ddof)).

(** [np.std(a)] *)
Definition std (a : list float) : float := std_ddof 0 a.

(** The real number a finite binary64 number stands for: its integer
    significand times a power of two. *)
Definition value (f : float) : option R :=
  match Prim2SF f with
  | S754_zero _ => Some 0%R
  | S754_finite s m e =>
      Some ((if s then -1 else 1) * IZR (Zpos m) * powerRZ 2 e)%R
  | _ => None
  end.

End Binary64.

(* ================================================================= *)
(** * content/enzyme_kinetics_simulator.ipynb *)

(** [def michaelis_menten(S, V_max, K_m): return (V_max * S) / (K_m + S)]
    for numpy operands (the notebooks call it on [np.int64] concentrations
    and on [float64] arrays), read in exact arithmetic: the value the three
    operations denote before rounding, non-finite when the divisor is zero.
    Not represented here: the rounding and overflow of binary64 (see
    [Binary64.michaelis_menten]), the wrap-around of an [int64] product
    beyond [2^63], and the [ZeroDivisionError] that plain Python numbers,
    which the notebooks never pass, raise on a zero divisor. *)
Definition michaelis_menten (S V_max K_m : R) : pyfloat :=
  pydiv (Fin (V_max * S)) (K_m + S).

(** The flat table written by [save_simulated_absorbance_data] and read back
    by [load_external_data]: one row per (concentration, replicate, time). *)
Module Csv.

Record Row : Type := mkRow {
  Time : R;
  Absorbance : pyfloat;
  Substrate_Concentration : R;
  Replicate : Z
}.

End Csv.

Module Simulator.

(** A row of the notebook's first data frame (no replicate column). *)
Record Row : Type := mkRow {
  Time : R;
  Absorbance : pyfloat;
  Substrate_Concentration : R
}.

Section Globals.

(** [simulate_absorbance] reads the notebook globals [V_max] and [K_m]. *)
Variables V_max K_m : R.

(** [P = michaelis_menten(S, V_max, K_m) * time]
    [A = epsilon * path_length * P]
    [A_noisy = A + np.random.normal(0, noise_level, size=A.shape)] *)
Definition simulate_absorbance (S : R) (time : list R)
    (epsilon path_length noise_level : R) : rand (list pyfloat) :=
  let P := map (fun t => pymul (michaelis_menten S V_max K_m) (Fin t)) time in
  let A := map (fun p => pymul (Fin (epsilon * path_length)) p) P in
  rand_bind (normal 0 noise_level (length A)) (fun noise =>
  rand_ret (map (fun an => pyadd (fst an) (Fin (snd an))) (combine A noise))).

(** The loop that builds one frame per concentration, and [pd.concat], which
    raises [ValueError] when there is nothing to concatenate. *)
Definition generate (substrate_concentrations time : list R)
    (epsilon path_length noise_level : R) : rand (list Row) :=
  rand_bind
    (rand_for_each
       (fun S =>
          rand_bind (simulate_absorbance S time epsilon path_length noise_level)
            (fun A_noisy =>
          rand_ret (map (fun ta => mkRow (fst ta) (snd ta) S)
                        (combine time A_noisy))))
       substrate_concentrations)
    (fun data =>
       match data with
       | [] => fun _ => raise ValueError
       | _ => rand_ret (concat data)
       end).

(** [df['Concentration'] = df['Absorbance'] / (epsilon * path_length)]:
    the frame with the new column beside each row. *)
Definition add_concentration (df : list Row) (epsilon path_length : R)
  : list (Row * pyfloat) :=
  map (fun r => (r, pydiv (Absorbance r) (epsilon * path_length))) df.

(** The loop over [substrate_concentrations]:
    [subset = df[df['Substrate_Concentration'] == S]]
    [v0 = np.polyfit(subset['Time'], subset['Concentration'], 1)[0]] *)
Definition initial_velocities (df : list (Row * pyfloat))
    (substrate_concentrations : list R) : res (list pyfloat) :=
  for_each
    (fun S =>
       let subset :=
         filter (fun rc => Reqb (Substrate_Concentration (fst rc)) S) df in
       c <- polyfit (map (fun rc => Time (fst rc)) subset) (map snd subset) ;;
       ret (fst c))
    substrate_concentrations.

(** The cells of the notebook from data generation to the velocities. *)
Definition estimate_from_simulation (substrate_concentrations time : list R)
    (epsilon path_length noise_level : R) : rand (list pyfloat) :=
  rand_bind
    (generate substrate_concentrations time epsilon path_length noise_level)
    (fun df st =>
       v <- initial_velocities (add_concentration df epsilon path_length)
              substrate_concentrations ;;
       ret (v, st)).

(** [range(1, n_replicates + 1)] *)
Definition replicate_range (n_replicates : Z) : list Z :=
  map Z.of_nat (seq 1 (Z.to_nat n_replicates)).

(** [save_simulated_absorbance_data]: the rows of the table it writes, in
    the order of the nested loops. *)
Definition save_simulated_absorbance_data
    (substrate_concentrations time : list R)
    (epsilon path_length noise_level : R) (n_replicates : Z)
  : rand (list Csv.Row) :=
  rand_bind
    (rand_for_each
       (fun S =>
          rand_bind
            (rand_for_each
               (fun replicate =>
                  rand_bind
                    (simulate_absorbance S time epsilon path_length noise_level)
                    (fun A_noisy =>
                  rand_ret (map (fun ta => Csv.mkRow (fst ta) (snd ta) S replicate)
                                (combine time A_noisy))))
               (replicate_range n_replicates))
            (fun blocks => rand_ret (concat blocks)))
       substrate_concentrations)
    (fun blocks => rand_ret (concat blocks)).

End Globals.

End Simulator.

(* ================================================================= *)
(** * The CSV notebook: initial velocities and the fit *)

Module Estimator.
Import Csv.

(** The body of the loop over concentrations: the replicates of [S] are
    fitted one by one, and the mean and the standard deviation of their
    slopes are kept. *)
Definition velocity_of (df : list Row) (epsilon path_length : R) (S : R)
  : res (pyfloat * pyfloat) :=
  let subset := filter (fun r => Reqb (Substrate_Concentration r) S) df in
  let subset :=
    map (fun r => (r, pydiv (Absorbance r) (epsilon * path_length))) subset in
  v0_values <-
    for_each
      (fun replicate =>
         let replicate_data :=
           filter (fun rc => Z.eqb (Replicate (fst rc)) replicate) subset in
         c <- polyfit (map (fun rc => Time (fst rc)) replicate_data)
                      (map snd replicate_data) ;;
         ret (fst c))
      (unique Z.eq_dec (map (fun rc => Replicate (fst rc)) subset)) ;;
  ret (mean v0_values, std v0_values).

(** [calculate_initial_velocities(df, epsilon, path_length)], returning
    [(substrate_concentrations, initial_velocities, std_velocities)]. *)
Definition calculate_initial_velocities (df : list Row)
    (epsilon path_length : R) : res (list R * list pyfloat * list pyfloat) :=
  let substrate_concentrations :=
    unique Req_dec_T (map Substrate_Concentration df) in
  stats <- for_each (velocity_of df epsilon path_length)
             substrate_concentrations ;;
  ret (substrate_concentrations, map fst stats, map snd stats).

End Estimator.

Module Fitter.

Section CurveFit.

(** MINPACK's Levenberg-Marquardt driver ([scipy.optimize.leastsq]): from the
    residual function and the initial guess to the parameters reached and
    the status flag [ier].  The iteration itself is not modelled. *)
Variable leastsq : (R * R -> list pyfloat) -> R * R -> (R * R) * Z.

(** numpy broadcasting of [f(xdata, ...) - ydata] for two 1-D arrays. *)
Definition broadcast (xdata ydata : list R) : option (list (R * R)) :=
  if Nat.eqb (length xdata) (length ydata) then Some (combine xdata ydata)
  else
    match xdata, ydata with
    | [x], _ => Some (map (fun y => (x, y)) ydata)
    | _, [y] => Some (map (fun x => (x, y)) xdata)
    | _, _ => None
    end.

(** [curve_fit(f, xdata, ydata, p0=[a, b])] with the default method
    (Levenberg-Marquardt, no bounds), returning [popt]:
    - [ydata] is checked to be finite ([ValueError] otherwise) and non-empty
      ([ValueError]);
    - the residuals are formed by broadcasting ([ValueError] when the shapes
      do not match);
    - fewer residuals than the two parameters: [TypeError];
    - a status [ier] outside 1..4: [RuntimeError]. *)
Definition curve_fit (f : R -> R -> R -> pyfloat) (xdata : list R)
    (ydata : list pyfloat) (p0 : R * R) : res (R * R) :=
  match all_finite ydata with
  | None => raise ValueError
  | Some y =>
      match y with
      | [] => raise ValueError
      | _ =>
          match broadcast xdata y with
          | None => raise ValueError
          | Some pts =>
              if Nat.ltb (length pts) 2 then raise TypeError
              else
                let residuals := fun p : R * R =>
                  map (fun xy => pysub (f (fst xy) (fst p) (snd p)) (Fin (snd xy)))
                      pts in
                let (popt, ier) := leastsq residuals p0 in
                if (1 <=? ier)%Z && (ier <=? 4)%Z then ret popt
                else raise RuntimeError
          end
      end
  end.

(** [popt, _ = curve_fit(michaelis_menten, substrate_concentrations,
                         initial_velocities, p0=[V_max, K_m])] *)
Definition fit_michaelis_menten (substrate_concentrations : list R)
    (initial_velocities : list pyfloat) (p0 : R * R) : res (R * R) :=
  curve_fit michaelis_menten substrate_concentrations initial_velocities p0.

End CurveFit.

End Fitter.

(** The cell of the CSV notebook that fits the external data and samples the
    fitted curve. *)
Module ExternalFit.

(** The built-in [max] of a sequence: the first element, replaced by every
    later element that compares greater; [ValueError] on an empty one. *)
Definition py_max (l : list R) : res R :=
  match l with
  | [] => raise ValueError
  | a :: t => ret (fold_left (fun m x => if Rlt_dec m x then x else m) t a)
  end.

Section Solver.

Variable leastsq : (R * R -> list pyfloat) -> R * R -> (R * R) * Z.

(** [substrate_concentrations_ext, initial_velocities_ext, std_velocities_ext
       = calculate_initial_velocities(df_external, epsilon, path_length)]
    [popt_ext, _ = curve_fit(michaelis_menten, substrate_concentrations_ext,
                             initial_velocities_ext, p0=[100, 50])] *)
Definition fit_external (df_external : list Csv.Row) (epsilon path_length : R)
  : res (list R * (R * R)) :=
  out <- Estimator.calculate_initial_velocities df_external epsilon path_length ;;
  popt_ext <- Fitter.fit_michaelis_menten leastsq (fst (fst out)) (snd (fst out))
                (100, 50) ;;
  ret (fst (fst out), popt_ext).

End Solver.

(** [S_fit = np.linspace(0, max(substrate_concentrations_ext), 500)]
    [v_fit_ext = michaelis_menten(S_fit, *popt_ext)] *)
Definition fitted_curve (substrate_concentrations_ext : list R)
    (popt_ext : R * R) : res (list R * list pyfloat) :=
  m <- py_max substrate_concentrations_ext ;;
  let S_fit := linspace 0 m 500 in
  ret (S_fit,
       map (fun S => michaelis_menten S (fst popt_ext) (snd popt_ext)) S_fit).

End ExternalFit.

(* ================================================================= *)
(** * The plate notebook: the grid behind the heat map *)

Module Plate.

(** A row of [abs_df]: the notebook reads the columns ['row'], ['column'],
    ['col'] and ['value']; a missing measurement is [None] ([nan]). *)
Record Well : Type := mkWell {
  row : string;
  column : Z;
  col : Z;
  value : option R
}.

(** A data frame of floats with row labels and column labels. *)
Record Frame : Type := mkFrame {
  index : list string;
  columns : list Z;
  data : list (list (option R))
}.

Definition key : Type := (string * Z)%type.

Definition key_eqb (k1 k2 : key) : bool :=
  String.eqb (fst k1) (fst k2) && Z.eqb (snd k1) (snd k2).

Definition key_leb (k1 k2 : key) : bool :=
  if String.ltb (fst k1) (fst k2) then true
  else String.eqb (fst k1) (fst k2) && Z.leb (snd k1) (snd k2).

Definition key_eq_dec (a b : key) : {a = b} + {a <> b}.
Proof. decide equality; [apply Z.eq_dec | apply string_dec]. Defined.

(** [GroupBy.last()]: the last non-null value of a group, [nan] if none. *)
Fixpoint last_valid (vs : list (option R)) : option R :=
  match vs with
  | [] => None
  | v :: t =>
      match last_valid t with
      | Some w => Some w
      | None => v
      end
  end.

(** [abs_df.groupby(['row', 'col'])['value'].last()]: a series indexed by
    the sorted group keys. *)
Definition groupby_last (df : list Well) : list (key * option R) :=
  map (fun k =>
         (k, last_valid
               (map value (filter (fun w => key_eqb (row w, col w) k) df))))
      (sorted key_leb (unique key_eq_dec (map (fun w => (row w, col w)) df))).

Definition series_get (s : list (key * option R)) (k : key) : option R :=
  match find (fun e => key_eqb (fst e) k) s with
  | Some e => snd e
  | None => None
  end.

(** [.unstack(level=1)]: the second key level becomes the columns; a
    combination without entry is [nan]. *)
Definition unstack (s : list (key * option R)) : Frame :=
  let idx := sorted String.leb (unique string_dec (map (fun e => fst (fst e)) s)) in
  let cls := sorted Z.leb (unique Z.eq_dec (map (fun e => snd (fst e)) s)) in
  mkFrame idx cls (map (fun r => map (fun c => series_get s (r, c)) cls) idx).

(** [frame.at[r, c]]: [None] when the frame has no such cell. *)
Definition frame_at (f : Frame) (r : string) (c : Z) : option (option R) :=
  match position String.eqb r (index f), position Z.eqb c (columns f) with
  | Some i, Some j =>
      match nth_error (data f) i with
      | Some line => nth_error line j
      | None => None
      end
  | _, _ => None
  end.

(** [.reindex(index=rows, columns=cols, fill_value=fill)] *)
Definition reindex (f : Frame) (rows : list string) (cols : list Z)
    (fill_value : option R) : Frame :=
  mkFrame rows cols
    (map (fun r =>
            map (fun c =>
                   match frame_at f r c with
                   | Some v => v
                   | None => fill_value
                   end) cols) rows).

(** [rows = sorted(abs_df['row'].unique())] *)
Definition rows (abs_df : list Well) : list string :=
  sorted String.leb (unique string_dec (map row abs_df)).

(** [cols = sorted(abs_df['column'].unique())] *)
Definition cols (abs_df : list Well) : list Z :=
  sorted Z.leb (unique Z.eq_dec (map column abs_df)).

(** The pivot of the first heat map, with [reindex]. *)
Definition heatmap_data (abs_df : list Well) : Frame :=
  reindex (unstack (groupby_last abs_df)) (rows abs_df) (cols abs_df) None.

(** The pivot of the auto-scaled heat map, without [reindex]. *)
Definition heatmap_data_autoscale (abs_df : list Well) : Frame :=
  unstack (groupby_last abs_df).

(** [values = abs_df['value'].values; clean_values = values[~np.isnan(values)]] *)
Definition clean_values (abs_df : list Well) : list R :=
  flat_map (fun w => match value w with Some v => [v] | None => [] end) abs_df.

(** The colour range of the auto-scaled heat map.  The min-max range of
    "Method 1" is computed and then overwritten by the percentiles of
    "Method 2"; a table without valid value gets the default range. *)
Definition color_range (abs_df : list Well) : res (pyfloat * pyfloat) :=
  let clean_values := clean_values abs_df in
  if (0 <? length clean_values)%nat then
    vmin <- amin clean_values ;;
    vmax <- amax clean_values ;;
    vmin <- percentile clean_values 5 ;;
    vmax <- percentile clean_values 95 ;;
    ret (vmin, vmax)
  else ret (Fin 0, Fin 1).

(** [midpoint = (vmin + vmax) / 2], the marker on the colour bar. *)
Definition midpoint (vmin vmax : pyfloat) : pyfloat :=
  pydiv (pyadd vmin vmax) 2.

End Plate.

(* ================================================================= *)
(** * Vocabulary of the statements *)

(** A time axis with at least two different instants. *)
Definition two_distinct (l : list R) : Prop :=
  exists a b, In a l /\ In b l /\ a <> b.

(** The Beer-Lambert absorbance of the zero-order product concentration
    [v(S) * t], in the order [simulate_absorbance] evaluates it. *)
Definition beer_lambert (V_max K_m epsilon path_length S t : R) : pyfloat :=
  pymul (Fin (epsilon * path_length))
        (pymul (michaelis_menten S V_max K_m) (Fin t)).

(** What the generators write when there is no noise: the frame of one
    concentration in the simulator notebook, one (concentration, replicate)
    trace of the saved table, and the whole saved table. *)
Definition noiseless_block (V_max K_m epsilon path_length : R) (time : list R)
    (S : R) : list Simulator.Row :=
  map (fun t => Simulator.mkRow t (beer_lambert V_max K_m epsilon path_length S t) S)
      time.

Definition noiseless_trace (V_max K_m epsilon path_length : R) (time : list R)
    (S : R) (replicate : Z) : list Csv.Row :=
  map (fun t =>
         Csv.mkRow t (beer_lambert V_max K_m epsilon path_length S t) S replicate)
      time.

Definition noiseless_table (V_max K_m epsilon path_length : R) (time : list R)
    (n_replicates : Z) (concs : list R) : list Csv.Row :=
  concat (map (fun S =>
                 concat (map (noiseless_trace V_max K_m epsilon path_length time S)
                             (Simulator.replicate_range n_replicates)))
              concs).

(** The rows of a table that belong to concentration [S]. *)
Definition rows_of (df : list Csv.Row) (S : R) : list Csv.Row :=
  filter (fun r => Reqb (Csv.Substrate_Concentration r) S) df.

(** The replicate identifiers recorded for concentration [S]. *)
Definition replicates_of (df : list Csv.Row) (S : R) : list Z :=
  unique Z.eq_dec (map Csv.Replicate (rows_of df S)).

(** What the estimator's triple says about concentration [S]: the mean and
    the standard deviation found at the index of [S]. *)
Definition reported (out : list R * list pyfloat * list pyfloat) (S : R)
  : option (pyfloat * pyfloat) :=
  match position Reqb S (fst (fst out)) with
  | Some i =>
      match nth_error (snd (fst out)) i, nth_error (snd out) i with
      | Some m, Some s => Some (m, s)
      | _, _ => None
      end
  | None => None
  end.

(** The frame handed to [np.polyfit] for one replicate of [S]: its rows with
    the converted concentration beside them. *)
Definition replicate_data (df : list Csv.Row) (epsilon path_length S : R)
    (replicate : Z) : list (Csv.Row * pyfloat) :=
  filter (fun rc => Z.eqb (Csv.Replicate (fst rc)) replicate)
         (map (fun r => (r, pydiv (Csv.Absorbance r) (epsilon * path_length)))
              (rows_of df S)).

(** The measurement the heat map shows for well [(r, c)]: the last valid
    value recorded for it, [None] ([nan], "no data") when there is none. *)
Definition well_value (abs_df : list Plate.Well) (r : string) (c : Z)
  : option R :=
  Plate.last_valid
    (map Plate.value
         (filter (fun w => Plate.key_eqb (Plate.row w, Plate.col w) (r, c))
                 abs_df)).

(** A frame with one line per row label and one cell per column label. *)
Definition rectangular (f : Plate.Frame) : Prop :=
  length (Plate.data f) = length (Plate.index f)
  /\ Forall (fun line => length line = length (Plate.columns f)) (Plate.data f).

(** ** Evaluation on concrete tables *)

(** Decides the comparisons of real constants met while a definition is
    unfolded on concrete data. *)
Ltac real_cases :=
  repeat match goal with
  | |- context [Req_dec_T ?a ?b] =>
      destruct (Req_dec_T a b) as [? | ?];
      [try (exfalso; lra) | try (exfalso; lra)]
  | |- context [Rlt_dec ?a ?b] =>
      destruct (Rlt_dec a b) as [? | ?];
      [try (exfalso; lra) | try (exfalso; lra)]
  end.

Ltac py_eval :=
  unfold Estimator.calculate_initial_velocities, Estimator.velocity_of,
         polyfit, std, std_ddof, mean, Reqb;
  repeat (simpl; unfold pysqrt, pydiv; real_cases).

(* ================================================================= *)
(** * Properties *)

Lemma pydiv_fin (x d : R) : d <> 0 -> pydiv (Fin x) d = Fin (x / d).
Proof.
  intros Hd. unfold pydiv. destruct (Req_dec_T d 0) as [E | _]; [contradiction | reflexivity].
Qed.

Lemma pydiv_zero (a : pyfloat) : pydiv a 0 = NonFin.
Proof.
  destruct a as [x |]; simpl; [| reflexivity].
  destruct (Req_dec_T 0 0) as [_ | N]; [reflexivity | now elim N].
Qed.

Lemma michaelis_menten_fin (S V_max K_m : R) :
  K_m + S <> 0 -> michaelis_menten S V_max K_m = Fin (V_max * S / (K_m + S)).
Proof. intros H. unfold michaelis_menten. now apply pydiv_fin. Qed.

Lemma Rabs_bound (x a : R) : Rabs x <= a -> - a <= x <= a.
Proof. unfold Rabs. destruct (Rcase_abs x); lra. Qed.

(** A product [p], a sum [s] and their quotient [q], each computed with a
    relative error of at most [u]: the quotient is within [4 u] of the exact
    one, relatively. *)
Lemma quotient_rounding (n d u p s q : R) :
  0 <= n -> 0 < d -> 0 <= u <= 1 / 8 ->
  Rabs (p - n) <= u * n ->
  Rabs (s - d) <= u * d ->
  Rabs (q - p / s) <= u * Rabs (p / s) ->
  Rabs (q - n / d) <= 4 * u * (n / d).
Proof.
  intros Hn Hd Hu Hp Hs Hq.
  apply Rabs_bound in Hp. apply Rabs_bound in Hs.
  assert (Hs0 : 0 < s) by nra.
  assert (Hp0 : 0 <= p) by nra.
  set (r := p / s) in *.
  assert (Hrs : r * s = p) by (unfold r; field; lra).
  assert (Hr0 : 0 <= r).
  { unfold r. apply Rmult_le_pos; [exact Hp0 |]. left. now apply Rinv_0_lt_compat. }
  rewrite (Rabs_pos_eq r Hr0) in Hq. apply Rabs_bound in Hq.
  set (v := n / d).
  assert (Hv : v * d = n) by (unfold v; field; lra).
  assert (Hv0 : 0 <= v).
  { unfold v. apply Rmult_le_pos; [exact Hn |]. left. now apply Rinv_0_lt_compat. }
  clearbody r v. subst n p.
  assert (H1 : r * ((1 - u) * d) <= r * s) by (apply Rmult_le_compat_l; lra).
  assert (H2 : r * s <= r * ((1 + u) * d)) by (apply Rmult_le_compat_l; lra).
  assert (Hup : r * (1 - u) <= (1 + u) * v).
  { apply Rmult_le_reg_r with d; [exact Hd |]. lra. }
  assert (Hlo : (1 - u) * v <= r * (1 + u)).
  { apply Rmult_le_reg_r with d; [exact Hd |]. lra. }
  assert (H3 : (1 + u) * (r * (1 - u)) <= (1 + u) * ((1 + u) * v))
    by (apply Rmult_le_compat_l; lra).
  assert (H4 : (1 - u) * ((1 - u) * v) <= (1 - u) * (r * (1 + u)))
    by (apply Rmult_le_compat_l; lra).
  assert (H5 : 0 <= u * v) by (apply Rmult_le_pos; lra).
  assert (H6 : 0 <= u * (u * v)) by (apply Rmult_le_pos; lra).
  assert (H7 : u * (u * v) <= 1 / 8 * (u * v))
    by (apply Rmult_le_compat_r; lra).
  assert (H8 : (1 - u) * (q - (1 + u) * r) <= 0).
  { rewrite <- (Rmult_0_r (1 - u)). apply Rmult_le_compat_l; lra. }
  assert (H9 : 0 <= (1 + u) * (q - (1 - u) * r)).
  { apply Rmult_le_pos; lra. }
  apply Rabs_le. split.
  - apply Rmult_le_reg_r with (1 + u); [lra |]. lra.
  - apply Rmult_le_reg_r with (1 - u); [lra |]. lra.
Qed.



(* ----------------------------------------------------------------- *)
(** ** Sums, least squares on exact lines *)

Lemma rsum_scale (A : Type) (f : A -> R) (c : R) (l : list A) :
  rsum (map (fun a => c * f a) l) = c * rsum (map f l).
Proof.
  induction l as [| a t IH]; simpl; [ring |]. rewrite IH. ring.
Qed.

Lemma rsum_id (l : list R) : rsum (map (fun a => a) l) = rsum l.
Proof. now rewrite map_id. Qed.

Lemma rsum_nonneg (A : Type) (f : A -> R) (l : list A) :
  (forall a, 0 <= f a) -> 0 <= rsum (map f l).
Proof.
  intros Hf. induction l as [| a t IH]; simpl; [lra |]. specialize (Hf a). lra.
Qed.

Lemma rsum_pos (A : Type) (f : A -> R) (l : list A) (a : A) :
  (forall b, 0 <= f b) -> In a l -> 0 < f a -> 0 < rsum (map f l).
Proof.
  intros Hf Hin Ha. induction l as [| b t IH]; simpl in *; [contradiction |].
  destruct Hin as [-> | Hin].
  - pose proof (rsum_nonneg A f t Hf). lra.
  - specialize (IH Hin). specialize (Hf b). lra.
Qed.

(** Sum of squared deviations from an arbitrary centre [m]. *)
Lemma rsum_sq_dev (m : R) (l : list R) :
  rsum (map (fun a => (a - m) * (a - m)) l)
  = rsum (map (fun a => a * a) l) - 2 * m * rsum l + INR (length l) * (m * m).
Proof.
  induction l as [| a t IH].
  - simpl. ring.
  - change (length (a :: t)) with (S (length t)). rewrite S_INR.
    simpl. rewrite IH. ring.
Qed.

Lemma sq_nonneg (x : R) : 0 <= x * x.
Proof. nra. Qed.

Lemma sq_pos (x : R) : x <> 0 -> 0 < x * x.
Proof. intros H. nra. Qed.

Lemma INR_length_pos (A : Type) (l : list A) (a : A) : In a l -> 0 < INR (length l).
Proof.
  intros Hin. destruct l as [| b t]; [contradiction |].
  change (length (b :: t)) with (S (length t)). rewrite S_INR.
  pose proof (pos_INR (length t)). lra.
Qed.

(** The determinant of the normal equations is positive as soon as two
    abscissae differ. *)
Lemma normal_det_pos (l : list R) :
  two_distinct l ->
  0 < INR (length l) * rsum (map (fun a => a * a) l) - rsum l * rsum l.
Proof.
  intros (a & b & Ha & Hb & Hab).
  pose proof (INR_length_pos _ l a Ha) as Hn.
  set (n := INR (length l)) in *.
  set (m := rsum l / n).
  assert (Hdev : 0 < rsum (map (fun x => (x - m) * (x - m)) l)).
  { destruct (Req_dec_T a m) as [Eam | Nam].
    - apply rsum_pos with (a := b);
        [intros; apply sq_nonneg | exact Hb | apply sq_pos; lra].
    - apply rsum_pos with (a := a);
        [intros; apply sq_nonneg | exact Ha | apply sq_pos; lra]. }
  rewrite rsum_sq_dev in Hdev. fold n in Hdev.
  assert (E : n * rsum (map (fun a0 => a0 * a0) l) - rsum l * rsum l
              = n * (rsum (map (fun a0 => a0 * a0) l) - 2 * m * rsum l + n * (m * m))).
  { unfold m. field. lra. }
  rewrite E. apply Rmult_lt_0_compat; assumption.
Qed.

Lemma sum_squares_pos (l : list R) :
  two_distinct l -> 0 < rsum (map (fun a => a * a) l).
Proof.
  intros (a & b & Ha & Hb & Hab).
  destruct (Req_dec_T a 0) as [E | N].
  - apply rsum_pos with (a := b);
      [intros; apply sq_nonneg | exact Hb | apply sq_pos; lra].
  - apply rsum_pos with (a := a);
      [intros; apply sq_nonneg | exact Ha | apply sq_pos; lra].
Qed.

Lemma all_finite_map_Fin (l : list R) : all_finite (map Fin l) = Some l.
Proof. induction l as [| a t IH]; simpl; [reflexivity | now rewrite IH]. Qed.

Lemma rsum_combine_line (c : R) (x : list R) :
  rsum (map (fun p => fst p * snd p) (combine x (map (fun t => c * t) x)))
  = c * rsum (map (fun a => a * a) x).
Proof.
  induction x as [| a t IH]; simpl; [ring |]. rewrite IH. ring.
Qed.

(** Least squares recovers the slope of an exact line through the origin. *)
Lemma polyfit_exact_line (c : R) (x : list R) :
  two_distinct x ->
  polyfit x (map (fun t => Fin (c * t)) x) = inr (Fin c, Fin 0).
Proof.
  intros Hx.
  pose proof (normal_det_pos x Hx) as HD.
  pose proof (sum_squares_pos x Hx) as Hsq.
  destruct Hx as (a & b & Ha & Hb & Hab).
  pose proof (INR_length_pos _ x a Ha) as Hn.
  unfold polyfit. destruct x as [| x0 xs]; [contradiction |].
  rewrite length_map, Nat.eqb_refl. cbv match beta. simpl negb. cbv iota.
  destruct (Req_dec_T _ 0) as [E | _]; [lra |].
  replace (map (fun t => Fin (c * t)) (x0 :: xs))
    with (map Fin (map (fun t => c * t) (x0 :: xs))) by (now rewrite map_map).
  rewrite all_finite_map_Fin.
  rewrite rsum_combine_line.
  rewrite (rsum_scale R (fun t => t) c), rsum_id.
  set (n := INR (length (x0 :: xs))) in *.
  set (sx := rsum (x0 :: xs)) in *.
  set (sxx := rsum (map (fun a0 => a0 * a0) (x0 :: xs))) in *.
  cbv zeta.
  destruct (Req_dec_T (n * sxx - sx * sx) 0) as [E | N]; [lra |].
  unfold ret. do 2 f_equal.
  - f_equal. field. lra.
  - f_equal. field. lra.
Qed.

Lemma polyfit_exact_rows (X : Type) (fx : X -> R) (fy : X -> pyfloat)
    (c : R) (l : list X) :
  (forall r, In r l -> fy r = Fin (c * fx r)) ->
  two_distinct (map fx l) ->
  polyfit (map fx l) (map fy l) = inr (Fin c, Fin 0).
Proof.
  intros Hy Hx.
  replace (map fy l) with (map (fun t => Fin (c * t)) (map fx l)).
  - now apply polyfit_exact_line.
  - rewrite map_map. apply map_ext_in. intros r Hr. symmetry. now apply Hy.
Qed.

(* ----------------------------------------------------------------- *)
(** ** Loops *)

Lemma for_each_inr (A B : Type) (f : A -> res B) (l : list A) (bs : list B) :
  for_each f l = inr bs <-> Forall2 (fun a b => f a = inr b) l bs.
Proof.
  revert bs. induction l as [| a t IH]; intros bs; simpl.
  - split.
    + intros H. injection H as <-. constructor.
    + intros H. inversion H. reflexivity.
  - split.
    + destruct (f a) as [e | b] eqn:Ea; simpl; [discriminate |].
      destruct (for_each f t) as [e | bs'] eqn:Et; simpl; [discriminate |].
      intros H. injection H as <-. constructor; [exact Ea |].
      now apply IH.
    + intros H. inversion H as [| a' b l' bs' Hab Ht]; subst.
      rewrite Hab. simpl. apply IH in Ht. rewrite Ht. reflexivity.
Qed.

Lemma for_each_map (A B : Type) (f : A -> res B) (g : A -> B) (l : list A) :
  (forall a, In a l -> f a = inr (g a)) -> for_each f l = inr (map g l).
Proof.
  intros H. apply for_each_inr. induction l as [| a t IH]; simpl; constructor.
  - apply H. now left.
  - apply IH. intros b Hb. apply H. now right.
Qed.

Lemma for_each_inl (A B : Type) (f : A -> res B) (l : list A) (e : exn) :
  for_each f l = inl e -> exists a, In a l /\ f a = inl e.
Proof.
  induction l as [| a t IH]; simpl; [discriminate |].
  destruct (f a) as [e' | b] eqn:Ea; simpl.
  - intros H. injection H as <-. exists a. split; [now left | exact Ea].
  - destruct (for_each f t) as [e' | bs] eqn:Et; simpl; [| discriminate].
    intros H. injection H as <-. destruct (IH eq_refl) as (a' & Hin & Ha').
    exists a'. split; [now right | exact Ha'].
Qed.

Lemma rand_for_each_map (A B : Type) (f : A -> rand B) (g : A -> B) (l : list A) :
  (forall a st, In a l -> exists st', f a st = inr (g a, st')) ->
  forall st, exists st', rand_for_each f l st = inr (map g l, st').
Proof.
  induction l as [| a t IH]; intros H st; simpl.
  - exists st. reflexivity.
  - unfold rand_bind. destruct (H a st (or_introl eq_refl)) as (st1 & E1).
    rewrite E1.
    destruct (IH (fun b s Hb => H b s (or_intror Hb)) st1) as (st2 & E2).
    rewrite E2. exists st2. reflexivity.
Qed.

(* ----------------------------------------------------------------- *)
(** ** [unique] *)

Lemma unique_In (A : Type) (dec : forall a b : A, {a = b} + {a <> b})
    (l : list A) (a : A) :
  In a (unique dec l) <-> In a l.
Proof.
  induction l as [| b t IH]; simpl; [tauto |].
  split.
  - intros [-> | H]; [now left |].
    apply in_remove in H. right. apply IH. tauto.
  - intros [-> | H]; [now left |].
    destruct (dec b a) as [-> | N]; [now left |].
    right. apply in_in_remove; [congruence | now apply IH].
Qed.

Lemma remove_NoDup (A : Type) (dec : forall a b : A, {a = b} + {a <> b})
    (l : list A) (a : A) :
  NoDup l -> NoDup (remove dec a l).
Proof.
  induction 1 as [| x t Hx _ IH]; simpl; [constructor |].
  destruct (dec a x); [exact IH |]. constructor; [| exact IH].
  intros H. apply in_remove in H. tauto.
Qed.

Lemma unique_NoDup (A : Type) (dec : forall a b : A, {a = b} + {a <> b})
    (l : list A) :
  NoDup (unique dec l).
Proof.
  induction l as [| a t IH]; simpl; constructor.
  - apply remove_In.
  - now apply remove_NoDup.
Qed.

Lemma Reqb_true (a b : R) : Reqb a b = true <-> a = b.
Proof.
  unfold Reqb. destruct (Req_dec_T a b); split; congruence.
Qed.

(* ----------------------------------------------------------------- *)
(** ** The generator without noise *)

Lemma pyadd_zero_noise (a : pyfloat) (z : R) : pyadd a (Fin (0 + 0 * z)) = a.
Proof. destruct a as [x |]; simpl; [f_equal; ring | reflexivity]. Qed.

Lemma add_zero_noise (st : RandomState) (A : list pyfloat) (k : nat) :
  map (fun an => pyadd (fst an) (Fin (snd an)))
      (combine A (map (fun i => 0 + 0 * st i) (seq k (length A)))) = A.
Proof.
  revert k. induction A as [| a t IH]; intros k; simpl; [reflexivity |].
  rewrite pyadd_zero_noise, IH. reflexivity.
Qed.

Section Noiseless.

Variables V_max K_m : R.

Lemma simulate_absorbance_noiseless (S : R) (time : list R)
    (epsilon path_length : R) (st : RandomState) :
  Simulator.simulate_absorbance V_max K_m S time epsilon path_length 0 st
  = inr (map (beer_lambert V_max K_m epsilon path_length S) time,
         fun i => st (length time + i)%nat).
Proof.
  unfold Simulator.simulate_absorbance, rand_bind, normal.
  destruct (Rlt_dec 0 0) as [H | _]; [lra |].
  unfold ret, rand_ret. rewrite add_zero_noise.
  rewrite !length_map, map_map. reflexivity.
Qed.

Lemma beer_lambert_fin (epsilon path_length S t : R) :
  K_m + S <> 0 ->
  beer_lambert V_max K_m epsilon path_length S t
  = Fin (epsilon * path_length * (V_max * S / (K_m + S)) * t).
Proof.
  intros H. unfold beer_lambert. rewrite michaelis_menten_fin by exact H.
  simpl. f_equal. ring.
Qed.

End Noiseless.



(* ----------------------------------------------------------------- *)
(** ** The simulator notebook without noise *)

Lemma combine_map_r (A B : Type) (f : A -> B) (l : list A) :
  combine l (map f l) = map (fun a => (a, f a)) l.
Proof. induction l as [| a t IH]; simpl; [reflexivity | now rewrite IH]. Qed.

Section NoiselessNotebook.

Variables V_max K_m epsilon path_length : R.
Variable time : list R.

Hypothesis constants_nonzero : epsilon * path_length <> 0.
Hypothesis time_distinct : two_distinct time.

Local Abbreviation block := (noiseless_block V_max K_m epsilon path_length time).

Lemma generate_noiseless (concs : list R) (st : RandomState) :
  concs <> [] ->
  exists st',
    Simulator.generate V_max K_m concs time epsilon path_length 0 st
    = inr (concat (map block concs), st').
Proof.
  intros Hne. unfold Simulator.generate. unfold rand_bind at 1.
  destruct (rand_for_each_map _ _
              (fun S =>
                 rand_bind
                   (Simulator.simulate_absorbance V_max K_m S time epsilon
                      path_length 0)
                   (fun A_noisy =>
                      rand_ret (map (fun ta => Simulator.mkRow (fst ta) (snd ta) S)
                                    (combine time A_noisy))))
              block concs) with (st := st) as (st' & E).
  - intros S st0 _. unfold rand_bind.
    rewrite simulate_absorbance_noiseless. eexists. unfold rand_ret, ret.
    rewrite combine_map_r, map_map. reflexivity.
  - rewrite E. destruct concs as [| S0 rest]; [contradiction |].
    simpl map. exists st'. reflexivity.
Qed.

Lemma block_row (concs : list R) (r : Simulator.Row) :
  In r (concat (map block concs)) ->
  exists t, In t time /\ In (Simulator.Substrate_Concentration r) concs /\
    Simulator.Time r = t /\
    Simulator.Absorbance r
    = beer_lambert V_max K_m epsilon path_length
        (Simulator.Substrate_Concentration r) t.
Proof.
  intros H. apply in_concat in H. destruct H as (b & Hb & Hr).
  apply in_map_iff in Hb. destruct Hb as (S & <- & HS).
  apply in_map_iff in Hr. destruct Hr as (t & <- & Ht).
  exists t. simpl. auto.
Qed.

Lemma block_has_row (concs : list R) (S t : R) :
  In S concs -> In t time ->
  In (Simulator.mkRow t (beer_lambert V_max K_m epsilon path_length S t) S)
     (concat (map block concs)).
Proof.
  intros HS Ht. apply in_concat. exists (block S). split.
  - apply in_map_iff. now exists S.
  - apply in_map_iff. now exists t.
Qed.

Lemma concentration_of_noiseless (S t : R) :
  K_m + S <> 0 ->
  pydiv (beer_lambert V_max K_m epsilon path_length S t) (epsilon * path_length)
  = Fin (V_max * S / (K_m + S) * t).
Proof.
  intros H. rewrite beer_lambert_fin by exact H.
  rewrite pydiv_fin by exact constants_nonzero. f_equal. field.
  split; [exact H |].
  split; intros E; apply constants_nonzero; rewrite E; ring.
Qed.

Lemma initial_velocities_noiseless (concs : list R) :
  (forall S, In S concs -> K_m + S <> 0) ->
  Simulator.initial_velocities
    (Simulator.add_concentration (concat (map block concs)) epsilon path_length)
    concs
  = inr (map (fun S => Fin (V_max * S / (K_m + S))) concs).
Proof.
  intros HK. unfold Simulator.initial_velocities. apply for_each_map.
  intros S HS.
  match goal with
  | |- context [polyfit (map ?fx ?l) (map ?fy ?l)] =>
      rewrite (polyfit_exact_rows _ fx fy (V_max * S / (K_m + S)) l)
  end.
  - reflexivity.
  - intros [r c] Hrc. apply filter_In in Hrc. destruct Hrc as [Hrc HSr].
    apply Reqb_true in HSr. simpl in HSr.
    unfold Simulator.add_concentration in Hrc. apply in_map_iff in Hrc.
    destruct Hrc as (r' & E & Hr'). injection E as -> <-.
    apply block_row in Hr'. destruct Hr' as (t & Ht & _ & ETime & EAbs).
    simpl. rewrite EAbs, HSr, ETime. apply concentration_of_noiseless.
    now apply HK.
  - destruct time_distinct as (a & b & Ha & Hb & Hab).
    exists a, b. repeat split; try exact Hab.
    + apply in_map_iff.
      exists (Simulator.mkRow a (beer_lambert V_max K_m epsilon path_length S a) S,
              pydiv (beer_lambert V_max K_m epsilon path_length S a)
                    (epsilon * path_length)).
      split; [reflexivity |]. apply filter_In. split.
      * unfold Simulator.add_concentration. apply in_map_iff.
        eexists. split; [| apply (block_has_row concs S a HS Ha)]. reflexivity.
      * simpl. now apply Reqb_true.
    + apply in_map_iff.
      exists (Simulator.mkRow b (beer_lambert V_max K_m epsilon path_length S b) S,
              pydiv (beer_lambert V_max K_m epsilon path_length S b)
                    (epsilon * path_length)).
      split; [reflexivity |]. apply filter_In. split.
      * unfold Simulator.add_concentration. apply in_map_iff.
        eexists. split; [| apply (block_has_row concs S b HS Hb)]. reflexivity.
      * simpl. now apply Reqb_true.
Qed.

(** The notebook's cells from generation to the slopes, without noise: each
    slope is the Michaelis-Menten velocity of its concentration. *)
Lemma estimate_from_simulation_noiseless (concs : list R) (st : RandomState) :
  concs <> [] ->
  (forall S, In S concs -> K_m + S <> 0) ->
  exists st',
    Simulator.estimate_from_simulation V_max K_m concs time epsilon path_length
      0 st
    = inr (map (fun S => Fin (V_max * S / (K_m + S))) concs, st').
Proof.
  intros Hne HK. unfold Simulator.estimate_from_simulation, rand_bind.
  destruct (generate_noiseless concs st Hne) as (st' & ->).
  rewrite (initial_velocities_noiseless concs HK). exists st'. reflexivity.
Qed.

End NoiselessNotebook.

Lemma linspace_0_10_100_distinct : two_distinct (linspace 0 10 100).
Proof.
  change (linspace 0 10 100)
    with (map (fun i => INR i * ((10 - 0) / INR 99) + 0) (seq 0 99) ++ [10]).
  exists 0, 10. repeat split; [| | lra].
  - apply in_or_app. left. apply in_map_iff. exists 0%nat. split.
    + simpl INR. ring.
    + apply in_seq. lia.
  - apply in_or_app. right. now left.
Qed.


(* ----------------------------------------------------------------- *)
(** ** Mean and standard deviation *)

Lemma pysum_const (v : R) (l : list pyfloat) :
  Forall (fun x => x = Fin v) l -> pysum l = Fin (INR (length l) * v).
Proof.
  induction 1 as [| x t Hx _ IH].
  - simpl. f_equal. ring.
  - change (length (x :: t)) with (S (length t)). rewrite S_INR.
    change (pysum (x :: t)) with (pyadd x (pysum t)).
    rewrite IH, Hx. simpl. f_equal. ring.
Qed.

Lemma INR_length_nonzero (A : Type) (l : list A) : l <> [] -> INR (length l) <> 0.
Proof.
  intros H. destruct l as [| a t]; [contradiction |].
  pose proof (INR_length_pos A (a :: t) a (or_introl eq_refl)). lra.
Qed.

Lemma mean_const (v : R) (l : list pyfloat) :
  l <> [] -> Forall (fun x => x = Fin v) l -> mean l = Fin v.
Proof.
  intros Hne Hl. unfold mean. rewrite (pysum_const v l Hl).
  pose proof (INR_length_nonzero _ l Hne) as Hn.
  rewrite pydiv_fin by exact Hn. f_equal. field. exact Hn.
Qed.

Lemma pysqrt_zero (x : R) : x = 0 -> pysqrt (Fin x) = Fin 0.
Proof.
  intros ->. simpl. destruct (Rlt_dec 0 0) as [H | _]; [lra |].
  now rewrite sqrt_0.
Qed.

Lemma std_const (v : R) (l : list pyfloat) :
  l <> [] -> Forall (fun x => x = Fin v) l -> std l = Fin 0.
Proof.
  intros Hne Hl. unfold std, std_ddof. rewrite (mean_const v l Hne Hl).
  pose proof (INR_length_nonzero _ l Hne) as Hn.
  rewrite (pysum_const ((v - v) * (v - v))).
  - rewrite length_map, Nat.sub_0_r, pydiv_fin by exact Hn.
    apply pysqrt_zero. field. exact Hn.
  - apply Forall_forall. intros y Hy. apply in_map_iff in Hy.
    destruct Hy as (x & <- & Hx).
    rewrite Forall_forall in Hl. rewrite (Hl x Hx). reflexivity.
Qed.

(* ----------------------------------------------------------------- *)
(** ** The generated table without noise, through the estimator *)

Section NoiselessReplicates.

Variables V_max K_m epsilon path_length : R.
Variable time : list R.
Variable n_replicates : Z.

Hypothesis constants_nonzero : epsilon * path_length <> 0.
Hypothesis time_distinct : two_distinct time.

Local Abbreviation trace := (noiseless_trace V_max K_m epsilon path_length time).
Local Abbreviation table :=
  (noiseless_table V_max K_m epsilon path_length time n_replicates).

Lemma save_noiseless (concs : list R) (st : RandomState) :
  exists st',
    Simulator.save_simulated_absorbance_data V_max K_m concs time epsilon
      path_length 0 n_replicates st
    = inr (table concs, st').
Proof.
  unfold Simulator.save_simulated_absorbance_data. unfold rand_bind at 1.
  match goal with
  | |- context [rand_for_each ?f concs st] =>
      destruct (rand_for_each_map _ _ f
                  (fun S => concat (map (trace S)
                                        (Simulator.replicate_range n_replicates)))
                  concs) with (st := st) as (st' & E)
  end.
  - intros S st0 _. unfold rand_bind at 1.
    match goal with
    | |- context [rand_for_each ?f ?l st0] =>
        destruct (rand_for_each_map _ _ f (trace S) l) with (st := st0)
          as (st1 & E1)
    end.
    + intros replicate st2 _. unfold rand_bind.
      rewrite simulate_absorbance_noiseless. eexists. unfold rand_ret, ret.
      rewrite combine_map_r, map_map. reflexivity.
    + rewrite E1. eexists. reflexivity.
  - rewrite E. exists st'. reflexivity.
Qed.

Lemma table_row (concs : list R) (r : Csv.Row) :
  In r (table concs) ->
  In (Csv.Substrate_Concentration r) concs /\
  In (Csv.Replicate r) (Simulator.replicate_range n_replicates) /\
  Csv.Absorbance r
  = beer_lambert V_max K_m epsilon path_length
      (Csv.Substrate_Concentration r) (Csv.Time r).
Proof.
  intros H. apply in_concat in H. destruct H as (b & Hb & Hr).
  apply in_map_iff in Hb. destruct Hb as (S & <- & HS).
  apply in_concat in Hr. destruct Hr as (b & Hb & Hr).
  apply in_map_iff in Hb. destruct Hb as (replicate & <- & Hrep).
  apply in_map_iff in Hr. destruct Hr as (t & <- & Ht).
  simpl. auto.
Qed.

Lemma table_has_row (concs : list R) (S : R) (replicate : Z) (t : R) :
  In S concs -> In replicate (Simulator.replicate_range n_replicates) ->
  In t time ->
  In (Csv.mkRow t (beer_lambert V_max K_m epsilon path_length S t) S replicate)
     (table concs).
Proof.
  intros HS Hrep Ht. apply in_concat. eexists. split.
  - apply in_map_iff. exists S. split; [reflexivity | exact HS].
  - apply in_concat. exists (trace S replicate). split.
    + apply in_map_iff. now exists replicate.
    + apply in_map_iff. now exists t.
Qed.

Lemma velocity_of_noiseless (concs : list R) (S : R) :
  In S (map Csv.Substrate_Concentration (table concs)) ->
  K_m + S <> 0 ->
  Estimator.velocity_of (table concs) epsilon path_length S
  = inr (Fin (V_max * S / (K_m + S)), Fin 0).
Proof.
  intros HS HK. unfold Estimator.velocity_of.
  set (subset :=
         map (fun r => (r, pydiv (Csv.Absorbance r) (epsilon * path_length)))
             (filter (fun r => Reqb (Csv.Substrate_Concentration r) S)
                     (table concs))).
  assert (Hsub : forall rc, In rc subset ->
            In (fst rc) (table concs) /\
            Csv.Substrate_Concentration (fst rc) = S /\
            snd rc = Fin (V_max * S / (K_m + S) * Csv.Time (fst rc))).
  { intros [r c] Hrc. apply in_map_iff in Hrc. destruct Hrc as (r' & E & Hr').
    injection E as <- <-. apply filter_In in Hr'. destruct Hr' as [Hr' HSr].
    apply Reqb_true in HSr. simpl. repeat split; try assumption.
    destruct (table_row concs r' Hr') as (_ & _ & EAbs).
    rewrite EAbs, HSr. apply concentration_of_noiseless; assumption. }
  set (reps := unique Z.eq_dec (map (fun rc => Csv.Replicate (fst rc)) subset)).
  assert (Hreps : reps <> []).
  { apply in_map_iff in HS. destruct HS as (r & ES & Hr).
    assert (Hin : In (Csv.Replicate r) reps).
    { apply unique_In. apply in_map_iff.
      exists (r, pydiv (Csv.Absorbance r) (epsilon * path_length)).
      split; [reflexivity |]. apply in_map_iff. exists r. split; [reflexivity |].
      apply filter_In. split; [exact Hr | now apply Reqb_true]. }
    intros E. rewrite E in Hin. contradiction. }
  rewrite (for_each_map _ _ _ (fun _ => Fin (V_max * S / (K_m + S))) reps).
  - simpl. unfold ret. f_equal. f_equal.
    + apply mean_const.
      * intros E. apply map_eq_nil in E. contradiction.
      * apply Forall_forall. intros y Hy. apply in_map_iff in Hy.
        now destruct Hy as (_ & <- & _).
    + apply (std_const (V_max * S / (K_m + S))).
      * intros E. apply map_eq_nil in E. contradiction.
      * apply Forall_forall. intros y Hy. apply in_map_iff in Hy.
        now destruct Hy as (_ & <- & _).
  - intros replicate Hrep.
    match goal with
    | |- context [polyfit (map ?fx ?l) (map ?fy ?l)] =>
        rewrite (polyfit_exact_rows _ fx fy (V_max * S / (K_m + S)) l)
    end.
    + reflexivity.
    + intros rc Hrc. apply filter_In in Hrc. destruct Hrc as [Hrc _].
      now apply Hsub.
    + apply unique_In in Hrep. apply in_map_iff in Hrep.
      destruct Hrep as (rc & Erep & Hrc).
      destruct (Hsub rc Hrc) as (Hr & HSr & _).
      destruct (table_row concs (fst rc) Hr) as (Hconc & Hrange & _).
      rewrite HSr in Hconc. rewrite Erep in Hrange.
      destruct time_distinct as (a & b & Ha & Hb & Hab).
      assert (Hrow : forall t, In t time ->
                In t (map (fun rc0 => Csv.Time (fst rc0))
                          (filter (fun rc0 => Z.eqb (Csv.Replicate (fst rc0)) replicate)
                                  subset))).
      { intros t Ht. apply in_map_iff.
        exists (Csv.mkRow t (beer_lambert V_max K_m epsilon path_length S t) S
                          replicate,
                pydiv (beer_lambert V_max K_m epsilon path_length S t)
                      (epsilon * path_length)).
        split; [reflexivity |]. apply filter_In. split.
        - apply in_map_iff.
          exists (Csv.mkRow t (beer_lambert V_max K_m epsilon path_length S t) S
                            replicate).
          split; [reflexivity |].
          apply filter_In. split.
          + now apply table_has_row.
          + simpl. now apply Reqb_true.
        - simpl. apply Z.eqb_refl. }
      exists a, b. repeat split; auto.
Qed.

Lemma calculate_noiseless (concs : list R) :
  (forall S, In S concs -> K_m + S <> 0) ->
  let cs := unique Req_dec_T (map Csv.Substrate_Concentration (table concs)) in
  Estimator.calculate_initial_velocities (table concs) epsilon path_length
  = inr (cs, map (fun S => Fin (V_max * S / (K_m + S))) cs,
         map (fun _ => Fin 0) cs).
Proof.
  intros HK cs. unfold Estimator.calculate_initial_velocities. fold cs.
  rewrite (for_each_map _ _ _
             (fun S => (Fin (V_max * S / (K_m + S)), Fin 0)) cs).
  - simpl. rewrite !map_map. reflexivity.
  - intros S HS. apply unique_In in HS. apply velocity_of_noiseless; [exact HS |].
    apply in_map_iff in HS. destruct HS as (r & <- & Hr).
    apply HK. now destruct (table_row concs r Hr).
Qed.

Lemma table_concentrations (concs : list R) (S : R) :
  In S (map Csv.Substrate_Concentration (table concs)) -> In S concs.
Proof.
  intros H. apply in_map_iff in H. destruct H as (r & <- & Hr).
  now destruct (table_row concs r Hr).
Qed.

Lemma table_covers (concs : list R) (S : R) :
  (1 <= n_replicates)%Z -> In S concs ->
  In S (map Csv.Substrate_Concentration (table concs)).
Proof.
  intros Hn HS. destruct time_distinct as (a & _ & Ha & _).
  apply in_map_iff.
  exists (Csv.mkRow a (beer_lambert V_max K_m epsilon path_length S a) S 1%Z).
  split; [reflexivity |]. apply table_has_row; try assumption.
  unfold Simulator.replicate_range. apply in_map_iff. exists 1%nat.
  split; [reflexivity |]. apply in_seq. lia.
Qed.

End NoiselessReplicates.

(** The columns [np.polyfit] receives for one replicate: the time points and
    the converted concentrations. *)
Lemma trace_fit_input (V_max K_m epsilon path_length : R) (time : list R)
    (S S' : R) (replicate r : Z) :
  map (fun rc => (Csv.Time (fst rc), snd rc))
      (filter (fun rc => Z.eqb (Csv.Replicate (fst rc)) r)
         (map (fun row => (row, pydiv (Csv.Absorbance row) (epsilon * path_length)))
            (filter (fun row => Reqb (Csv.Substrate_Concentration row) S)
               (noiseless_trace V_max K_m epsilon path_length time S' replicate))))
  = if Reqb S' S && Z.eqb replicate r
    then map (fun t => (t, pydiv (beer_lambert V_max K_m epsilon path_length S' t)
                                 (epsilon * path_length))) time
    else [].
Proof.
  unfold noiseless_trace.
  induction time as [| t rest IH]; simpl.
  - now destruct (Reqb S' S && Z.eqb replicate r).
  - destruct (Reqb S' S); simpl; [| exact IH].
    destruct (Z.eqb replicate r); simpl; [| exact IH].
    f_equal. exact IH.
Qed.

Lemma one_replicate_of_range (X : Type) (L : list X) (r : Z) (l : list Z) :
  NoDup l -> In r l ->
  flat_map (fun replicate => if Z.eqb replicate r then L else []) l = L.
Proof.
  induction 1 as [| a t Ha Hnd IH]; [contradiction |].
  assert (Hno : ~ In r t ->
                flat_map (fun replicate => if Z.eqb replicate r then L else []) t
                = []).
  { clear. induction t as [| b t IH]; intros Hr; [reflexivity |]. simpl.
    destruct (Z.eqb_spec b r) as [-> | _]; [elim Hr; now left |].
    apply IH. intros H. apply Hr. now right. }
  intros [-> | Hr]; simpl.
  - rewrite Z.eqb_refl, Hno by exact Ha. apply app_nil_r.
  - destruct (Z.eqb_spec a r) as [-> | _]; [contradiction |]. now apply IH.
Qed.

(** In the table generated without noise, the fit of a replicate of [S]
    receives the same columns whichever replicate it is. *)
Lemma noiseless_fit_input (V_max K_m epsilon path_length : R) (time : list R)
    (n_replicates : Z) (concs : list R) (S : R) (r : Z) :
  In r (Simulator.replicate_range n_replicates) ->
  map (fun rc => (Csv.Time (fst rc), snd rc))
      (replicate_data
         (noiseless_table V_max K_m epsilon path_length time n_replicates concs)
         epsilon path_length S r)
  = flat_map
      (fun S' =>
         if Reqb S' S
         then map (fun t => (t, pydiv (beer_lambert V_max K_m epsilon path_length S' t)
                                      (epsilon * path_length))) time
         else [])
      concs.
Proof.
  intros Hr. unfold replicate_data, rows_of, noiseless_table.
  assert (Hnd : NoDup (Simulator.replicate_range n_replicates)).
  { unfold Simulator.replicate_range. apply Finite.Injective_map_NoDup.
    - intros a b. apply Nat2Z.inj.
    - apply seq_NoDup. }
  induction concs as [| S' rest IH]; [reflexivity |].
  simpl. rewrite filter_app, map_app, filter_app, map_app, IH. f_equal.
  clear IH.
  transitivity
    (flat_map
       (fun replicate =>
          if Z.eqb replicate r
          then (if Reqb S' S
                then map (fun t =>
                            (t, pydiv (beer_lambert V_max K_m epsilon path_length S' t)
                                      (epsilon * path_length))) time
                else [])
          else [])
       (Simulator.replicate_range n_replicates)).
  - clear Hr Hnd.
    induction (Simulator.replicate_range n_replicates) as [| a t IHt];
      [reflexivity |].
    simpl. rewrite filter_app, map_app, filter_app, map_app, IHt. f_equal.
    rewrite trace_fit_input.
    destruct (Reqb S' S), (Z.eqb a r); reflexivity.
  - now apply one_replicate_of_range.
Qed.




(* ----------------------------------------------------------------- *)
(** ** The estimator on arbitrary tables *)

Lemma Reqb_refl (a : R) : Reqb a a = true.
Proof. now apply Reqb_true. Qed.

(** [velocity_of] reads the table only through the rows of [S]. *)
Lemma velocity_of_rows (df : list Csv.Row) (epsilon path_length S : R) :
  Estimator.velocity_of df epsilon path_length S
  = Estimator.velocity_of (rows_of df S) epsilon path_length S.
Proof.
  unfold Estimator.velocity_of, rows_of.
  replace (filter (fun r => Reqb (Csv.Substrate_Concentration r) S)
             (filter (fun r => Reqb (Csv.Substrate_Concentration r) S) df))
    with (filter (fun r => Reqb (Csv.Substrate_Concentration r) S) df).
  - reflexivity.
  - induction df as [| r t IH]; simpl; [reflexivity |].
    destruct (Reqb (Csv.Substrate_Concentration r) S) eqn:E; simpl.
    + rewrite E. now f_equal.
    + exact IH.
Qed.

Lemma in_rows_of (df : list Csv.Row) (S : R) :
  In S (map Csv.Substrate_Concentration df) <-> rows_of df S <> [].
Proof.
  unfold rows_of. split.
  - intros H E. apply in_map_iff in H. destruct H as (r & HS & Hr).
    assert (Hin : In r (filter (fun r => Reqb (Csv.Substrate_Concentration r) S) df)).
    { apply filter_In. split; [exact Hr | now apply Reqb_true]. }
    rewrite E in Hin. contradiction.
  - intros H.
    destruct (filter (fun r => Reqb (Csv.Substrate_Concentration r) S) df)
      as [| r t] eqn:E; [contradiction |].
    assert (Hin : In r (filter (fun r => Reqb (Csv.Substrate_Concentration r) S) df))
      by (rewrite E; now left).
    apply filter_In in Hin. destruct Hin as [Hr HS]. apply Reqb_true in HS.
    apply in_map_iff. now exists r.
Qed.

(** The triple returned by the estimator, entry by entry. *)
Lemma reported_entry (f : R -> res (pyfloat * pyfloat)) (cs : list R)
    (stats : list (pyfloat * pyfloat)) (S : R) :
  Forall2 (fun a b => f a = inr b) cs stats ->
  (In S cs ->
   exists p, f S = inr p /\ reported (cs, map fst stats, map snd stats) S = Some p)
  /\ (~ In S cs -> reported (cs, map fst stats, map snd stats) S = None).
Proof.
  unfold reported. simpl fst. simpl snd.
  induction 1 as [| a b cs' stats' Hab _ IH]; simpl.
  - split; [contradiction | reflexivity].
  - destruct (Reqb S a) eqn:E.
    + apply Reqb_true in E. subst a. split.
      * intros _. exists b. split; [exact Hab | now destruct b].
      * intros N. elim N. now left.
    + assert (Hne : a <> S).
      { intros ->. rewrite Reqb_refl in E. discriminate. }
      destruct IH as [IH1 IH2]. split.
      * intros [Ha | HS]; [contradiction |].
        destruct (IH1 HS) as (p & Hp & Hrep). exists p. split; [exact Hp |].
        destruct (position Reqb S cs') as [i |]; [exact Hrep | discriminate].
      * intros N. assert (N' : ~ In S cs') by tauto. specialize (IH2 N').
        destruct (position Reqb S cs') as [i |]; [exact IH2 | reflexivity].
Qed.

Lemma calculate_inr (df : list Csv.Row) (epsilon path_length : R)
    (out : list R * list pyfloat * list pyfloat) :
  Estimator.calculate_initial_velocities df epsilon path_length = inr out ->
  exists stats,
    Forall2 (fun S p => Estimator.velocity_of df epsilon path_length S = inr p)
            (unique Req_dec_T (map Csv.Substrate_Concentration df)) stats
    /\ out = (unique Req_dec_T (map Csv.Substrate_Concentration df),
              map fst stats, map snd stats).
Proof.
  unfold Estimator.calculate_initial_velocities.
  destruct (for_each _ _) as [e | stats] eqn:E; simpl; [discriminate |].
  intros H. injection H as <-. exists stats.
  split; [now apply for_each_inr | reflexivity].
Qed.

(** C8: the entry the estimator reports for a concentration [S] (mean and
    standard deviation of [v0]) is computed from the rows of [S] only: two
    tables with the same rows for [S] get the same entry for [S], whatever
    their other rows are; when [S] occurs, the entry exists and is the result
    of fitting the rows of [S] alone. *)
Theorem estimator_reads_own_rows (df1 df2 : list Csv.Row)
    (epsilon path_length S : R)
    (out1 out2 : list R * list pyfloat * list pyfloat) :
  rows_of df1 S = rows_of df2 S ->
  Estimator.calculate_initial_velocities df1 epsilon path_length = inr out1 ->
  Estimator.calculate_initial_velocities df2 epsilon path_length = inr out2 ->
  reported out1 S = reported out2 S
  /\ (rows_of df1 S <> [] ->
      exists p, reported out1 S = Some p /\
        Estimator.velocity_of (rows_of df1 S) epsilon path_length S = inr p).
Proof.
  intros Hrows H1 H2.
  apply calculate_inr in H1. destruct H1 as (stats1 & F1 & ->).
  apply calculate_inr in H2. destruct H2 as (stats2 & F2 & ->).
  destruct (reported_entry _ _ _ S F1) as [A1 B1].
  destruct (reported_entry _ _ _ S F2) as [A2 B2].
  assert (Hin : In S (unique Req_dec_T (map Csv.Substrate_Concentration df1))
                <-> In S (unique Req_dec_T (map Csv.Substrate_Concentration df2))).
  { rewrite !unique_In, !in_rows_of, Hrows. reflexivity. }
  split.
  - destruct (in_dec Req_dec_T S
                (unique Req_dec_T (map Csv.Substrate_Concentration df1)))
      as [Y | N].
    + destruct (A1 Y) as (p1 & V1 & ->).
      destruct (A2 (proj1 Hin Y)) as (p2 & V2 & ->).
      rewrite velocity_of_rows in V1, V2. rewrite Hrows in V1. congruence.
    + rewrite (B1 N). symmetry. apply B2. tauto.
  - intros Hne. apply in_rows_of in Hne. apply unique_In with (dec := Req_dec_T) in Hne.
    destruct (A1 Hne) as (p1 & V1 & E1). exists p1. split; [exact E1 |].
    now rewrite <- velocity_of_rows.
Qed.

Lemma Forall2_nth_error_l (A B : Type) (P : A -> B -> Prop) (l : list A)
    (bs : list B) (i : nat) (a : A) :
  Forall2 P l bs -> nth_error l i = Some a ->
  exists b, nth_error bs i = Some b /\ P a b.
Proof.
  intros F. revert i. induction F as [| x y l' bs' Hxy _ IH]; intros i.
  - destruct i; discriminate.
  - destruct i as [| i]; simpl.
    + intros E. injection E as <-. now exists y.
    + apply IH.
Qed.

(** The same independence for the loop of the simulator notebook: the slope
    at the position of [S] is fitted on the rows of [S] alone. *)
Lemma initial_velocities_reads_own_rows (df1 df2 : list (Simulator.Row * pyfloat))
    (concs : list R) (S : R) (v1 v2 : list pyfloat) (i : nat) :
  filter (fun rc => Reqb (Simulator.Substrate_Concentration (fst rc)) S) df1
  = filter (fun rc => Reqb (Simulator.Substrate_Concentration (fst rc)) S) df2 ->
  Simulator.initial_velocities df1 concs = inr v1 ->
  Simulator.initial_velocities df2 concs = inr v2 ->
  nth_error concs i = Some S ->
  nth_error v1 i = nth_error v2 i.
Proof.
  intros Hrows H1 H2 Hi. unfold Simulator.initial_velocities in H1, H2.
  apply for_each_inr in H1. apply for_each_inr in H2.
  destruct (Forall2_nth_error_l _ _ _ _ _ i S H1 Hi) as (b1 & -> & E1).
  destruct (Forall2_nth_error_l _ _ _ _ _ i S H2 Hi) as (b2 & -> & E2).
  cbv beta in E1, E2. rewrite Hrows in E1. congruence.
Qed.

(* ----------------------------------------------------------------- *)
(** ** Exceptions of the estimator *)

Lemma sum_squares_zero (x : list R) (a : R) :
  rsum (map (fun a => a * a) x) = 0 -> In a x -> a = 0.
Proof.
  intros Hs Ha. destruct (Req_dec_T a 0) as [E | N]; [exact E |].
  pose proof (rsum_pos R (fun a => a * a) x a sq_nonneg Ha (sq_pos a N)). lra.
Qed.

(** [np.polyfit] on two columns of one non-empty frame can only fail with
    [LinAlgError], and only when every abscissa is zero. *)
Lemma polyfit_raises (X : Type) (fx : X -> R) (fy : X -> pyfloat)
    (l : list X) (e : exn) :
  l <> [] ->
  polyfit (map fx l) (map fy l) = inl e ->
  e = LinAlgError /\ forall r, In r l -> fx r = 0.
Proof.
  intros Hne. unfold polyfit.
  destruct l as [| r0 t]; [contradiction |].
  change (map fx (r0 :: t)) with (fx r0 :: map fx t).
  cbv iota beta. change (fx r0 :: map fx t) with (map fx (r0 :: t)).
  rewrite !length_map, Nat.eqb_refl. simpl negb. cbv iota.
  destruct (Req_dec_T _ 0) as [E | N].
  - intros H. injection H as <-. split; [reflexivity |].
    intros r Hr. apply (sum_squares_zero (map fx (r0 :: t))); [exact E |].
    now apply in_map.
  - destruct (all_finite _); [| discriminate].
    cbv zeta. destruct (Req_dec_T _ 0); discriminate.
Qed.

Lemma calculate_raises (df : list Csv.Row) (epsilon path_length : R) (e : exn) :
  Estimator.calculate_initial_velocities df epsilon path_length = inl e ->
  e = LinAlgError /\
  exists S replicate,
    In replicate (replicates_of df S) /\
    forall r, In r (rows_of df S) -> Csv.Replicate r = replicate ->
              Csv.Time r = 0.
Proof.
  unfold Estimator.calculate_initial_velocities.
  destruct (for_each _ _) as [e' | stats] eqn:E; simpl; [| discriminate].
  intros H. injection H as ->.
  apply for_each_inl in E. destruct E as (S & _ & E).
  unfold Estimator.velocity_of in E.
  destruct (for_each _ _) as [e' | v0s] eqn:E'; simpl in E; [| discriminate].
  injection E as ->.
  apply for_each_inl in E'. destruct E' as (replicate & Hrep & E').
  destruct (polyfit _ _) as [e' | c] eqn:Ep; simpl in E'; [| discriminate].
  injection E' as ->.
  rewrite map_map in Hrep. simpl in Hrep.
  apply polyfit_raises in Ep.
  - destruct Ep as [-> Hzero]. split; [reflexivity |].
    exists S, replicate. split; [exact Hrep |].
    intros r Hr Er.
    apply (Hzero (r, pydiv (Csv.Absorbance r) (epsilon * path_length))).
    apply filter_In. split.
    + apply in_map_iff. now exists r.
    + simpl. now apply Z.eqb_eq.
  - apply unique_In in Hrep. apply in_map_iff in Hrep.
    destruct Hrep as (r & Er & Hr). intros En.
    assert (Hin : In (r, pydiv (Csv.Absorbance r) (epsilon * path_length))
                     (filter (fun rc => Z.eqb (Csv.Replicate (fst rc)) replicate)
                        (map (fun r => (r, pydiv (Csv.Absorbance r)
                                               (epsilon * path_length)))
                             (filter (fun r => Reqb (Csv.Substrate_Concentration r) S)
                                     df)))).
    { apply filter_In. split.
      - apply in_map_iff. now exists r.
      - simpl. now apply Z.eqb_eq. }
    rewrite En in Hin. contradiction.
Qed.

(* ----------------------------------------------------------------- *)
(** ** Non-finite values through the estimator *)

Lemma pyadd_nonfin_r (a : pyfloat) : pyadd a NonFin = NonFin.
Proof. now destruct a. Qed.

Lemma pysum_nonfin (l : list pyfloat) : In NonFin l -> pysum l = NonFin.
Proof.
  induction l as [| a t IH]; [contradiction |].
  change (pysum (a :: t)) with (pyadd a (pysum t)).
  intros [-> | H]; [reflexivity |]. rewrite (IH H). apply pyadd_nonfin_r.
Qed.

Lemma mean_nonfin (l : list pyfloat) : In NonFin l -> mean l = NonFin.
Proof. intros H. unfold mean. now rewrite pysum_nonfin. Qed.

Lemma std_nonfin (ddof : nat) (l : list pyfloat) :
  In NonFin l -> std_ddof ddof l = NonFin.
Proof.
  intros H. unfold std_ddof. rewrite pysum_nonfin; [reflexivity |].
  apply in_map_iff. exists NonFin. split; [reflexivity | exact H].
Qed.

Lemma all_finite_nonfin (l : list pyfloat) : In NonFin l -> all_finite l = None.
Proof.
  induction l as [| a t IH]; [contradiction |].
  intros [-> | H]; [reflexivity |]. simpl. rewrite (IH H). now destruct a.
Qed.

Lemma polyfit_nonfin (x : list R) (y : list pyfloat) (c : pyfloat * pyfloat) :
  In NonFin y -> polyfit x y = inr c -> c = (NonFin, NonFin).
Proof.
  intros Hy. unfold polyfit. destruct x as [| x0 xs]; [discriminate |].
  destruct (negb _); [discriminate |].
  destruct (Req_dec_T _ 0); [discriminate |].
  rewrite (all_finite_nonfin y Hy). intros H. now injection H as <-.
Qed.

Lemma velocity_of_inr (df : list Csv.Row) (epsilon path_length S : R)
    (p : pyfloat * pyfloat) :
  Estimator.velocity_of df epsilon path_length S = inr p ->
  exists v0_values,
    Forall2
      (fun replicate v =>
         exists i,
           polyfit
             (map (fun rc => Csv.Time (fst rc))
                  (replicate_data df epsilon path_length S replicate))
             (map snd (replicate_data df epsilon path_length S replicate))
           = inr (v, i))
      (replicates_of df S) v0_values
    /\ p = (mean v0_values, std v0_values).
Proof.
  unfold Estimator.velocity_of.
  destruct (for_each _ _) as [e | v0s] eqn:E; simpl; [discriminate |].
  intros H. injection H as <-. exists v0s. split; [| reflexivity].
  apply for_each_inr in E. unfold replicates_of, replicate_data, rows_of.
  rewrite map_map in E. simpl in E.
  eapply Forall2_impl; [| exact E].
  intros replicate v Hv. cbv beta in Hv.
  destruct (polyfit _ _) as [e | [a i]] eqn:Ep; simpl in Hv; [discriminate |].
  injection Hv as <-. now exists i.
Qed.

Lemma replicate_data_nonempty (df : list Csv.Row) (epsilon path_length S : R)
    (replicate : Z) :
  In replicate (replicates_of df S) ->
  exists r, In r (rows_of df S) /\ Csv.Replicate r = replicate /\
    In (r, pydiv (Csv.Absorbance r) (epsilon * path_length))
       (replicate_data df epsilon path_length S replicate).
Proof.
  intros H. apply unique_In in H. apply in_map_iff in H.
  destruct H as (r & Er & Hr). exists r. repeat split; try assumption.
  apply filter_In. split.
  - apply in_map_iff. now exists r.
  - simpl. now apply Z.eqb_eq.
Qed.

Lemma replicates_of_nonempty (df : list Csv.Row) (S : R) :
  In S (map Csv.Substrate_Concentration df) -> replicates_of df S <> [].
Proof.
  intros H. apply in_rows_of in H. unfold replicates_of.
  destruct (rows_of df S) as [| r t]; [contradiction |]. discriminate.
Qed.

Lemma velocity_of_zero_constants (df : list Csv.Row)
    (epsilon path_length S : R) (p : pyfloat * pyfloat) :
  epsilon * path_length = 0 ->
  In S (map Csv.Substrate_Concentration df) ->
  Estimator.velocity_of df epsilon path_length S = inr p ->
  p = (NonFin, NonFin).
Proof.
  intros Hz HS Hp. apply velocity_of_inr in Hp.
  destruct Hp as (v0s & F & ->).
  pose proof (replicates_of_nonempty df S HS) as Hne.
  assert (Hall : Forall (fun v => v = NonFin) v0s).
  { clear Hne. induction F as [| replicate v reps vs (i & Hv) _ IH];
      constructor; [| exact IH].
    (* the membership of [replicate] is not available here: use the frame *)
    destruct (map snd (replicate_data df epsilon path_length S replicate))
      as [| y ys] eqn:Ey.
    - unfold polyfit in Hv.
      destruct (map (fun rc => Csv.Time (fst rc))
                    (replicate_data df epsilon path_length S replicate))
        as [| x0 xs] eqn:Ex; [discriminate |].
      apply (f_equal (@length _)) in Ex. apply (f_equal (@length _)) in Ey.
      rewrite length_map in Ex, Ey. simpl in Ex, Ey. congruence.
    - assert (Hy : In y (map snd (replicate_data df epsilon path_length S replicate)))
        by (rewrite Ey; now left).
      apply in_map_iff in Hy. destruct Hy as ([r c] & <- & Hrc).
      apply filter_In in Hrc. destruct Hrc as [Hrc _].
      apply in_map_iff in Hrc. destruct Hrc as (r' & E & _).
      injection E as <- <-. simpl in Hv. rewrite Hz, pydiv_zero in Hv.
      apply polyfit_nonfin in Hv; [now injection Hv | now left]. }
  assert (Hin : In NonFin v0s).
  { destruct F as [| replicate v reps vs _ _]; [contradiction |].
    inversion Hall; subst. now left. }
  now rewrite mean_nonfin, (std_nonfin 0) by exact Hin.
Qed.

(** C5, as the code has it: the estimator never raises [ConfigurationError].
    When [epsilon * path_length] is zero the conversion divides by zero the
    numpy way, and whenever the estimator returns, every reported mean and
    standard deviation of [v0] is a non-finite float. *)
Theorem zero_constants_are_not_rejected (df : list Csv.Row)
    (epsilon path_length : R) :
  Estimator.calculate_initial_velocities df epsilon path_length
    <> inl ConfigurationError
  /\ (epsilon * path_length = 0 ->
      forall cs ms ss,
        Estimator.calculate_initial_velocities df epsilon path_length
          = inr (cs, ms, ss) ->
        Forall (fun m => m = NonFin) ms /\ Forall (fun s => s = NonFin) ss).
Proof.
  split.
  - intros H. apply calculate_raises in H. destruct H as [H _]. discriminate.
  - intros Hz cs ms ss H. apply calculate_inr in H.
    destruct H as (stats & F & E). injection E as -> -> ->.
    assert (Hall : Forall (fun p => p = (NonFin, NonFin)) stats).
    { assert (Hcs : forall S,
                In S (unique Req_dec_T (map Csv.Substrate_Concentration df)) ->
                In S (map Csv.Substrate_Concentration df))
        by (intros S; apply unique_In).
      induction F as [| S p cs' stats' Hp _ IH]; constructor.
      - apply (velocity_of_zero_constants df epsilon path_length S);
          [exact Hz | apply Hcs; now left | exact Hp].
      - apply IH. intros S' HS'. apply Hcs. now right. }
    split; apply Forall_forall; intros y Hy; apply in_map_iff in Hy;
      destruct Hy as (p & <- & Hp); rewrite Forall_forall in Hall;
      now rewrite (Hall p Hp).
Qed.

Lemma sum_squares_all_zero (x : list R) :
  (forall a, In a x -> a = 0) -> rsum (map (fun a => a * a) x) = 0.
Proof.
  induction x as [| a t IH]; intros H; simpl; [reflexivity |].
  rewrite IH by (intros b Hb; apply H; now right).
  rewrite (H a (or_introl eq_refl)). ring.
Qed.

Lemma polyfit_all_zero (X : Type) (fx : X -> R) (fy : X -> pyfloat)
    (l : list X) :
  l <> [] -> (forall r, In r l -> fx r = 0) ->
  polyfit (map fx l) (map fy l) = inl LinAlgError.
Proof.
  intros Hne Hz. unfold polyfit.
  destruct l as [| r0 t]; [contradiction |].
  change (map fx (r0 :: t)) with (fx r0 :: map fx t).
  cbv iota beta. change (fx r0 :: map fx t) with (map fx (r0 :: t)).
  rewrite !length_map, Nat.eqb_refl. simpl negb. cbv iota.
  destruct (Req_dec_T _ 0) as [_ | N]; [reflexivity |].
  elim N. apply sum_squares_all_zero. intros a Ha.
  apply in_map_iff in Ha. destruct Ha as (r & <- & Hr). now apply Hz.
Qed.

Lemma Forall2_In_l (A B : Type) (P : A -> B -> Prop) (l : list A)
    (bs : list B) (a : A) :
  Forall2 P l bs -> In a l -> exists b, P a b.
Proof.
  induction 1 as [| x y l' bs' Hxy _ IH]; [contradiction |].
  intros [-> | Hin]; [now exists y | now apply IH].
Qed.

(** The estimator fails exactly when some replicate has no non-zero time
    point. *)
Lemma calculate_raises_iff (df : list Csv.Row) (epsilon path_length : R) :
  Estimator.calculate_initial_velocities df epsilon path_length
    = inl LinAlgError
  <-> exists S replicate,
        In replicate (replicates_of df S) /\
        forall r, In r (rows_of df S) -> Csv.Replicate r = replicate ->
                  Csv.Time r = 0.
Proof.
  split; [intros H; now apply calculate_raises in H |].
  intros (S & replicate & Hrep & Hzero).
  destruct (Estimator.calculate_initial_velocities df epsilon path_length)
    as [e | out] eqn:E.
  - apply calculate_raises in E. now destruct E as [-> _].
  - exfalso. apply calculate_inr in E. destruct E as (stats & F & _).
    assert (HS : In S (unique Req_dec_T (map Csv.Substrate_Concentration df))).
    { apply unique_In, in_rows_of. unfold replicates_of in Hrep.
      intros En. rewrite En in Hrep. contradiction. }
    destruct (Forall2_In_l _ _ _ _ _ S F HS) as (p & Hp).
    apply velocity_of_inr in Hp. destruct Hp as (v0s & Fv & _).
    destruct (Forall2_In_l _ _ _ _ _ replicate Fv Hrep) as (v & i & Hv).
    rewrite polyfit_all_zero in Hv; [discriminate | |].
    + destruct (replicate_data_nonempty df epsilon path_length S replicate Hrep)
        as (r & _ & _ & Hin).
      intros En. rewrite En in Hin. contradiction.
    + intros [r c] Hrc. apply filter_In in Hrc. destruct Hrc as [Hrc Er].
      apply in_map_iff in Hrc. destruct Hrc as (r' & E' & Hr').
      injection E' as <- <-. simpl in *. apply Hzero; [exact Hr' |].
      now apply Z.eqb_eq.
Qed.

(** The estimator returns as soon as every replicate has a non-zero time
    point. *)
Lemma calculate_returns (df : list Csv.Row) (epsilon path_length : R) :
  (forall S replicate, In replicate (replicates_of df S) ->
     exists r, In r (rows_of df S) /\ Csv.Replicate r = replicate /\
               Csv.Time r <> 0) ->
  exists out,
    Estimator.calculate_initial_velocities df epsilon path_length = inr out.
Proof.
  intros H.
  destruct (Estimator.calculate_initial_velocities df epsilon path_length)
    as [e | out] eqn:E; [| now exists out].
  exfalso. apply calculate_raises in E.
  destruct E as (_ & S & replicate & Hrep & Hzero).
  destruct (H S replicate Hrep) as (r & Hr & Er & Ht).
  apply Ht. now apply Hzero.
Qed.

(** C6, as the code has it: the estimator never raises
    [InsufficientDataError], however few time points a replicate has; the
    rows of a replicate go to [np.polyfit] as they are.  The only exception
    it can raise is numpy's [LinAlgError], and it does raise it when all the
    time points of some replicate are 0. *)
Theorem short_replicates_are_not_rejected (df : list Csv.Row)
    (epsilon path_length : R) :
  Estimator.calculate_initial_velocities df epsilon path_length
    <> inl InsufficientDataError
  /\ (forall e,
        Estimator.calculate_initial_velocities df epsilon path_length = inl e ->
        e = LinAlgError)
  /\ ((exists S replicate,
         In replicate (replicates_of df S) /\
         forall r, In r (rows_of df S) -> Csv.Replicate r = replicate ->
                   Csv.Time r = 0) ->
      Estimator.calculate_initial_velocities df epsilon path_length
      = inl LinAlgError).
Proof.
  split; [| split].
  - intros H. apply calculate_raises in H. destruct H as [H _]. discriminate.
  - intros e H. now apply calculate_raises in H.
  - apply calculate_raises_iff.
Qed.

(* ----------------------------------------------------------------- *)
(** ** The estimator on concrete tables *)

(** At [epsilon = 0] the estimator returns a report of [nan]s, not a
    [ConfigurationError]. *)
Lemma zero_epsilon_counterexample :
  Estimator.calculate_initial_velocities
    [Csv.mkRow 0 (Fin 0) 10 1; Csv.mkRow 1 (Fin 20) 10 1] 0 1
  = inr ([10], [NonFin], [NonFin])
  /\ Estimator.calculate_initial_velocities
       [Csv.mkRow 0 (Fin 0) 10 1; Csv.mkRow 1 (Fin 20) 10 1] 0 1
     <> inl ConfigurationError.
Proof.
  assert (E : Estimator.calculate_initial_velocities
                [Csv.mkRow 0 (Fin 0) 10 1; Csv.mkRow 1 (Fin 20) 10 1] 0 1
              = inr ([10], [NonFin], [NonFin])).
  { py_eval. reflexivity. }
  split; [exact E | rewrite E; discriminate].
Qed.

(** A replicate with a single time point gets a slope (the rank-deficient
    fit of [np.polyfit]), not an [InsufficientDataError]. *)
Lemma single_time_point_counterexample :
  Estimator.calculate_initial_velocities [Csv.mkRow 1 (Fin 2000) 10 1] 1000 1
  = inr ([10], [Fin 1], [Fin 0])
  /\ Estimator.calculate_initial_velocities [Csv.mkRow 1 (Fin 2000) 10 1] 1000 1
     <> inl InsufficientDataError.
Proof.
  assert (E : Estimator.calculate_initial_velocities
                [Csv.mkRow 1 (Fin 2000) 10 1] 1000 1
              = inr ([10], [Fin 1], [Fin 0])).
  { py_eval. unfold ret. repeat f_equal.
    - field.
    - match goal with |- sqrt ?x = 0 => replace x with 0 by field end.
      apply sqrt_0. }
  split; [exact E | rewrite E; discriminate].
Qed.

Lemma estimator_reads_own_rows_witness :
  reported ([10], [Fin 2], [Fin 0]) 10
  = reported ([10; 20], [Fin 2; Fin 3], [Fin 0; Fin 0]) 10
  /\ (rows_of [Csv.mkRow 0 (Fin 0) 10 1; Csv.mkRow 1 (Fin 2000) 10 1] 10 <> [] ->
      exists p, reported ([10], [Fin 2], [Fin 0]) 10 = Some p /\
        Estimator.velocity_of
          (rows_of [Csv.mkRow 0 (Fin 0) 10 1; Csv.mkRow 1 (Fin 2000) 10 1] 10)
          1000 1 10 = inr p).
Proof.
  apply (estimator_reads_own_rows
           [Csv.mkRow 0 (Fin 0) 10 1; Csv.mkRow 1 (Fin 2000) 10 1]
           [Csv.mkRow 0 (Fin 0) 10 1; Csv.mkRow 0 (Fin 0) 20 1;
            Csv.mkRow 1 (Fin 2000) 10 1; Csv.mkRow 1 (Fin 3000) 20 1]
           1000 1 10).
  - unfold rows_of, Reqb. simpl. real_cases. reflexivity.
  - py_eval. unfold ret. repeat f_equal.
    + field.
    + match goal with |- sqrt ?x = 0 => replace x with 0 by field end.
      apply sqrt_0.
  - py_eval. unfold ret. repeat f_equal.
    + field.
    + field.
    + match goal with |- sqrt ?x = 0 => replace x with 0 by field end.
      apply sqrt_0.
    + match goal with |- sqrt ?x = 0 => replace x with 0 by field end.
      apply sqrt_0.
Defined.

(* ----------------------------------------------------------------- *)
(** ** The standard deviation is the population one *)

Lemma mean_singleton_finite (a : pyfloat) :
  is_finite (mean [a]) = true -> exists y, a = Fin y.
Proof.
  destruct a as [y |]; [intros _; now exists y |].
  rewrite mean_nonfin by now left. discriminate.
Qed.

Lemma std_ddof_one_singleton (a : pyfloat) : std_ddof 1 [a] = NonFin.
Proof.
  unfold std_ddof. simpl length. simpl Nat.sub. simpl INR.
  now rewrite pydiv_zero.
Qed.

Lemma all_finite_some (l : list pyfloat) :
  (forall b, In b l -> is_finite b = true) -> exists rs, all_finite l = Some rs.
Proof.
  induction l as [| a t IH]; intros H; simpl.
  - now exists [].
  - destruct a as [r |].
    + destruct IH as (rs & ->); [intros b Hb; apply H; now right |].
      now exists (r :: rs).
    + specialize (H NonFin (or_introl eq_refl)). discriminate.
Qed.

(** A fit on finite ordinates has a finite slope. *)
Lemma polyfit_finite (x : list R) (y : list pyfloat) (v i : pyfloat) :
  (forall b, In b y -> is_finite b = true) ->
  polyfit x y = inr (v, i) -> is_finite v = true.
Proof.
  intros Hy. unfold polyfit. destruct x as [| x0 xs]; [discriminate |].
  destruct (negb _); [discriminate |].
  destruct (Req_dec_T _ 0); [discriminate |].
  destruct (all_finite_some y Hy) as (rs & ->). cbv zeta.
  destruct (Req_dec_T _ 0); intros H; injection H as <- _; reflexivity.
Qed.

Lemma mean_finite (l : list pyfloat) :
  l <> [] -> Forall (fun v => is_finite v = true) l -> is_finite (mean l) = true.
Proof.
  intros Hne Hl. unfold mean.
  assert (Hs : exists s, pysum l = Fin s).
  { clear Hne. induction Hl as [| a t Ha _ IH]; [now exists 0 |].
    change (pysum (a :: t)) with (pyadd a (pysum t)).
    destruct IH as (s & ->). destruct a as [r |]; [| discriminate].
    now exists (r + s). }
  destruct Hs as (s & ->).
  now rewrite pydiv_fin by (now apply INR_length_nonzero).
Qed.

Lemma pysum_map_Fin (vs : list R) : pysum (map Fin vs) = Fin (rsum vs).
Proof.
  induction vs as [| v t IH]; [reflexivity |].
  change (pysum (map Fin (v :: t))) with (pyadd (Fin v) (pysum (map Fin t))).
  now rewrite IH.
Qed.

Lemma mean_map_Fin (vs : list R) :
  vs <> [] -> mean (map Fin vs) = Fin (rsum vs / INR (length vs)).
Proof.
  intros Hne. unfold mean. rewrite pysum_map_Fin, length_map.
  now rewrite pydiv_fin by (now apply INR_length_nonzero).
Qed.

(** [np.std] on finite values, written out: the root of the mean squared
    deviation, the sum of squares being divided by the number of values. *)
Lemma std_map_Fin (vs : list R) :
  vs <> [] ->
  std_ddof 0 (map Fin vs)
  = Fin (sqrt (rsum (map (fun v => (v - rsum vs / INR (length vs))
                                   * (v - rsum vs / INR (length vs))) vs)
               / INR (length vs))).
Proof.
  intros Hne. unfold std_ddof. rewrite (mean_map_Fin vs Hne).
  pose proof (INR_length_nonzero _ vs Hne) as Hn.
  set (m := rsum vs / INR (length vs)).
  rewrite map_map. cbn [pysub pymul].
  rewrite <- (map_map (fun v => (v - m) * (v - m)) Fin).
  rewrite pysum_map_Fin, !length_map, Nat.sub_0_r, pydiv_fin by exact Hn.
  unfold pysqrt. destruct (Rlt_dec _ 0) as [Hneg | _]; [| reflexivity].
  exfalso.
  pose proof (rsum_nonneg R (fun v => (v - m) * (v - m)) vs
                (fun v => sq_nonneg (v - m))) as Hq.
  assert (Hpos : 0 < INR (length vs)).
  { destruct vs as [| v t]; [contradiction |].
    apply (INR_length_pos R (v :: t) v). now left. }
  assert (0 <= rsum (map (fun v => (v - m) * (v - m)) vs) / INR (length vs)).
  { apply Rmult_le_pos; [exact Hq |]. apply Rlt_le. now apply Rinv_0_lt_compat. }
  lra.
Qed.



(* ----------------------------------------------------------------- *)
(** ** The fit *)

Section FitterErrors.

Variable leastsq : (R * R -> list pyfloat) -> R * R -> (R * R) * Z.

Lemma curve_fit_raises (f : R -> R -> R -> pyfloat) (xdata : list R)
    (ydata : list pyfloat) (p0 : R * R) (e : exn) :
  Fitter.curve_fit leastsq f xdata ydata p0 = inl e ->
  e = ValueError \/ e = TypeError \/ e = RuntimeError.
Proof.
  unfold Fitter.curve_fit.
  destruct (all_finite ydata) as [y |]; [| intros H; injection H as <-; auto].
  destruct y as [| y0 ys]; [intros H; injection H as <-; auto |].
  destruct (Fitter.broadcast xdata (y0 :: ys)) as [pts |];
    [| intros H; injection H as <-; auto].
  destruct (Nat.ltb (length pts) 2); [intros H; injection H as <-; auto |].
  destruct (leastsq _ p0) as [popt ier].
  destruct ((1 <=? ier)%Z && (ier <=? 4)%Z); [discriminate |].
  intros H; injection H as <-; auto.
Qed.

Lemma all_finite_length (l : list pyfloat) (y : list R) :
  all_finite l = Some y -> length y = length l.
Proof.
  revert y. induction l as [| a t IH]; intros y; simpl.
  - intros H. now injection H as <-.
  - destruct a as [r |]; [| discriminate].
    destruct (all_finite t) as [rs |]; [| discriminate].
    intros H. injection H as <-. simpl. f_equal. now apply IH.
Qed.

(** C4, as the code has it: the fit never raises [UnderdeterminedFitError].
    Its exceptions are the built-in ones of [curve_fit].  Without observation
    it raises [ValueError], with a single finite one [TypeError], with a
    non-finite velocity [ValueError].  Two or more finite observations, as
    many concentrations as velocities, go to the solver whatever the
    concentrations are (two at one and the same concentration included): its
    parameters are returned when its status is 1, 2, 3 or 4, and
    [RuntimeError] is raised otherwise. *)
Theorem fit_has_no_underdetermined_error (xdata : list R)
    (ydata : list pyfloat) (p0 : R * R) :
  Fitter.fit_michaelis_menten leastsq xdata ydata p0
    <> inl UnderdeterminedFitError
  /\ (forall e,
        Fitter.fit_michaelis_menten leastsq xdata ydata p0 = inl e ->
        e = ValueError \/ e = TypeError \/ e = RuntimeError)
  /\ (length xdata = length ydata -> (length ydata < 2)%nat ->
      Fitter.fit_michaelis_menten leastsq xdata ydata p0 = inl ValueError \/
      Fitter.fit_michaelis_menten leastsq xdata ydata p0 = inl TypeError)
  /\ (ydata = [] ->
      Fitter.fit_michaelis_menten leastsq xdata ydata p0 = inl ValueError)
  /\ (forall x v, xdata = [x] -> ydata = [Fin v] ->
      Fitter.fit_michaelis_menten leastsq xdata ydata p0 = inl TypeError)
  /\ (In NonFin ydata ->
      Fitter.fit_michaelis_menten leastsq xdata ydata p0 = inl ValueError)
  /\ (forall ys,
        ydata = map Fin ys -> length xdata = length ys ->
        (2 <= length ys)%nat ->
        let residuals := fun p : R * R =>
          map (fun xy =>
                 pysub (michaelis_menten (fst xy) (fst p) (snd p))
                       (Fin (snd xy)))
              (combine xdata ys) in
        let ier := snd (leastsq residuals p0) in
        Fitter.fit_michaelis_menten leastsq xdata ydata p0
        = if (1 <=? ier)%Z && (ier <=? 4)%Z
          then inr (fst (leastsq residuals p0))
          else inl RuntimeError)
  /\ (forall S v1 v2,
        let residuals := fun p : R * R =>
          [pysub (michaelis_menten S (fst p) (snd p)) (Fin v1);
           pysub (michaelis_menten S (fst p) (snd p)) (Fin v2)] in
        snd (leastsq residuals p0) = 1%Z ->
        Fitter.fit_michaelis_menten leastsq [S; S] [Fin v1; Fin v2] p0
        = inr (fst (leastsq residuals p0))).
Proof.
  unfold Fitter.fit_michaelis_menten.
  split; [| split; [| split; [| split; [| split; [| split; [| split]]]]]].
  - intros H. apply curve_fit_raises in H.
    destruct H as [H | [H | H]]; discriminate.
  - apply curve_fit_raises.
  - intros Hlen Hlt. unfold Fitter.curve_fit.
    destruct (all_finite ydata) as [y |] eqn:Ey; [| now left].
    apply all_finite_length in Ey.
    destruct y as [| y0 ys]; [now left |].
    unfold Fitter.broadcast. rewrite Ey, Hlen, Nat.eqb_refl.
    assert (Hc : length (combine xdata (y0 :: ys)) = length ydata).
    { rewrite length_combine, Ey, Hlen. apply Nat.min_id. }
    rewrite Hc. apply Nat.ltb_lt in Hlt. rewrite Hlt. now right.
  - intros ->. reflexivity.
  - intros x v -> ->. reflexivity.
  - intros Hnon. unfold Fitter.curve_fit.
    destruct (all_finite ydata) as [y |] eqn:Ey; [| reflexivity].
    exfalso. revert y Ey. induction ydata as [| a t IH]; intros y Ey;
      [contradiction |].
    simpl in Ey. destruct a as [r |]; [| discriminate].
    destruct (all_finite t) as [rs |] eqn:Et; [| discriminate].
    destruct Hnon as [Hnon | Hnon]; [discriminate |].
    now apply (IH Hnon rs).
  - intros ys -> Hlen Hn. cbv zeta. unfold Fitter.curve_fit.
    rewrite all_finite_map_Fin.
    destruct ys as [| y0 yt]; [simpl in Hn; lia |].
    unfold Fitter.broadcast. rewrite Hlen, Nat.eqb_refl.
    assert (Hc : length (combine xdata (y0 :: yt)) = length (y0 :: yt)).
    { rewrite length_combine, Hlen. apply Nat.min_id. }
    rewrite Hc.
    destruct (Nat.ltb_spec (length (y0 :: yt)) 2) as [Hlt | _]; [lia |].
    destruct (leastsq _ p0) as [popt ier]. reflexivity.
  - intros S v1 v2. cbv zeta. intros Hier. unfold Fitter.curve_fit. simpl.
    destruct (leastsq _ p0) as [popt ier].
    simpl in Hier. subst ier. reflexivity.
Qed.

End FitterErrors.

(** One observation (hence one distinct concentration) makes [curve_fit]
    raise [TypeError], not an [UnderdeterminedFitError]. *)
Lemma one_concentration_counterexample :
  (length (unique Req_dec_T [10%R]) < 2)%nat
  /\ (forall leastsq,
        Fitter.fit_michaelis_menten leastsq [10] [Fin 20] (100, 50)
        = inl TypeError)
  /\ (forall leastsq,
        Fitter.fit_michaelis_menten leastsq [10] [Fin 20] (100, 50)
        <> inl UnderdeterminedFitError).
Proof.
  split; [simpl; lia |].
  assert (E : forall leastsq,
            Fitter.fit_michaelis_menten leastsq [10] [Fin 20] (100, 50)
            = inl TypeError) by (intros leastsq; reflexivity).
  split; [exact E | intros leastsq; rewrite E; discriminate].
Qed.

(* ----------------------------------------------------------------- *)
(** ** The plate grid *)

Lemma insert_sorted_In (A : Type) (leb : A -> A -> bool) (a b : A) (l : list A) :
  In b (insert_sorted leb a l) <-> b = a \/ In b l.
Proof.
  induction l as [| x t IH]; simpl.
  - intuition.
  - destruct (leb a x); simpl; [intuition |]. rewrite IH. intuition.
Qed.

Lemma sorted_In (A : Type) (leb : A -> A -> bool) (a : A) (l : list A) :
  In a (sorted leb l) <-> In a l.
Proof.
  induction l as [| x t IH]; simpl; [tauto |].
  rewrite insert_sorted_In, IH. intuition.
Qed.

Lemma position_Some (A : Type) (eqb : A -> A -> bool) (a : A) (l : list A) :
  (forall x y, eqb x y = true <-> x = y) ->
  In a l -> exists i, position eqb a l = Some i /\ nth_error l i = Some a.
Proof.
  intros Heq. induction l as [| x t IH]; [contradiction |].
  intros Hin. simpl. destruct (eqb a x) eqn:E.
  - apply Heq in E. subst x. now exists 0%nat.
  - destruct Hin as [-> | Hin].
    + assert (eqb a a = true) by now apply Heq. congruence.
    + destruct (IH Hin) as (i & -> & Hi). now exists (S i).
Qed.

Lemma position_None (A : Type) (eqb : A -> A -> bool) (a : A) (l : list A) :
  (forall x y, eqb x y = true <-> x = y) ->
  ~ In a l -> position eqb a l = None.
Proof.
  intros Heq. induction l as [| x t IH]; [reflexivity |].
  intros Hin. simpl. destruct (eqb a x) eqn:E.
  - apply Heq in E. subst x. elim Hin. now left.
  - rewrite IH; [reflexivity |]. intros H. apply Hin. now right.
Qed.

Lemma key_eqb_eq (k1 k2 : Plate.key) : Plate.key_eqb k1 k2 = true <-> k1 = k2.
Proof.
  destruct k1 as [r1 c1], k2 as [r2 c2]. unfold Plate.key_eqb. simpl.
  rewrite andb_true_iff, String.eqb_eq, Z.eqb_eq.
  split; [intros [-> ->]; reflexivity | intros E; now injection E].
Qed.

Section Grid.

Variable g : string -> Z -> option R.

(** A frame built cell by cell from its labels. *)
Lemma frame_at_table (idx : list string) (cls : list Z) (r : string) (c : Z) :
  Plate.frame_at
    (Plate.mkFrame idx cls (map (fun r => map (fun c => g r c) cls) idx)) r c
  = if in_dec string_dec r idx
    then if in_dec Z.eq_dec c cls then Some (g r c) else None
    else None.
Proof.
  unfold Plate.frame_at. simpl.
  destruct (in_dec string_dec r idx) as [Hr | Hr].
  - destruct (position_Some _ String.eqb r idx String.eqb_eq Hr) as (i & -> & Hi).
    destruct (in_dec Z.eq_dec c cls) as [Hc | Hc].
    + destruct (position_Some _ Z.eqb c cls Z.eqb_eq Hc) as (j & -> & Hj).
      rewrite nth_error_map, Hi. simpl. rewrite nth_error_map, Hj. reflexivity.
    + now rewrite (position_None _ Z.eqb c cls Z.eqb_eq Hc).
  - now rewrite (position_None _ String.eqb r idx String.eqb_eq Hr).
Qed.

Lemma table_rectangular (idx : list string) (cls : list Z) :
  rectangular
    (Plate.mkFrame idx cls (map (fun r => map (fun c => g r c) cls) idx)).
Proof.
  unfold rectangular. simpl. split; [apply length_map |].
  apply Forall_forall. intros line Hl. apply in_map_iff in Hl.
  destruct Hl as (r & <- & _). apply length_map.
Qed.

End Grid.

Lemma series_get_keys (h : Plate.key -> option R) (ks : list Plate.key)
    (k : Plate.key) :
  Plate.series_get (map (fun k' => (k', h k')) ks) k
  = if in_dec Plate.key_eq_dec k ks then h k else None.
Proof.
  unfold Plate.series_get. induction ks as [| k' t IH]; simpl; [reflexivity |].
  destruct (Plate.key_eqb k' k) eqn:E.
  - apply key_eqb_eq in E. subst k'. simpl.
    destruct (Plate.key_eq_dec k k) as [_ | N]; [reflexivity | now elim N].
  - destruct (Plate.key_eq_dec k' k) as [-> | N].
    + assert (Plate.key_eqb k k = true) by now apply key_eqb_eq. congruence.
    + rewrite IH. destruct (in_dec Plate.key_eq_dec k t); reflexivity.
Qed.

Lemma well_value_absent (abs_df : list Plate.Well) (r : string) (c : Z) :
  (forall w, In w abs_df -> ~ (Plate.row w = r /\ Plate.col w = c)) ->
  well_value abs_df r c = None.
Proof.
  intros H. unfold well_value.
  replace (filter (fun w => Plate.key_eqb (Plate.row w, Plate.col w) (r, c)) abs_df)
    with (@nil Plate.Well); [reflexivity |].
  symmetry. induction abs_df as [| w t IH]; simpl; [reflexivity |].
  destruct (Plate.key_eqb (Plate.row w, Plate.col w) (r, c)) eqn:E.
  - apply key_eqb_eq in E. injection E as Er Ec.
    elim (H w (or_introl eq_refl)). now split.
  - apply IH. intros w' Hw'. apply H. now right.
Qed.

Lemma groupby_last_get (abs_df : list Plate.Well) (r : string) (c : Z) :
  Plate.series_get (Plate.groupby_last abs_df) (r, c) = well_value abs_df r c.
Proof.
  unfold Plate.groupby_last.
  rewrite (series_get_keys
             (fun k => Plate.last_valid
                         (map Plate.value
                              (filter (fun w => Plate.key_eqb (Plate.row w, Plate.col w) k)
                                      abs_df)))).
  destruct (in_dec _ _ _) as [_ | N]; [reflexivity |].
  symmetry. apply well_value_absent. intros w Hw [Er Ec]. apply N.
  apply sorted_In, unique_In, in_map_iff. exists w. split; [| exact Hw].
  now rewrite Er, Ec.
Qed.

Lemma groupby_last_rows (abs_df : list Plate.Well) (r : string) :
  In r (map (fun e => fst (fst e)) (Plate.groupby_last abs_df))
  <-> exists w, In w abs_df /\ Plate.row w = r.
Proof.
  unfold Plate.groupby_last. rewrite map_map. simpl. split.
  - intros H. apply in_map_iff in H. destruct H as (k & <- & Hk).
    apply sorted_In, unique_In, in_map_iff in Hk.
    destruct Hk as (w & <- & Hw). now exists w.
  - intros (w & Hw & <-). apply in_map_iff. exists (Plate.row w, Plate.col w).
    split; [reflexivity |]. apply sorted_In, unique_In, in_map_iff. now exists w.
Qed.

Lemma groupby_last_cols (abs_df : list Plate.Well) (c : Z) :
  In c (map (fun e => snd (fst e)) (Plate.groupby_last abs_df))
  <-> exists w, In w abs_df /\ Plate.col w = c.
Proof.
  unfold Plate.groupby_last. rewrite map_map. simpl. split.
  - intros H. apply in_map_iff in H. destruct H as (k & <- & Hk).
    apply sorted_In, unique_In, in_map_iff in Hk.
    destruct Hk as (w & <- & Hw). now exists w.
  - intros (w & Hw & <-). apply in_map_iff. exists (Plate.row w, Plate.col w).
    split; [reflexivity |]. apply sorted_In, unique_In, in_map_iff. now exists w.
Qed.

(** Every cell of the unstacked frame, and nothing else. *)
Lemma unstack_at (abs_df : list Plate.Well) (r : string) (c : Z) :
  Plate.frame_at (Plate.unstack (Plate.groupby_last abs_df)) r c
  = if in_dec string_dec r (Plate.index (Plate.unstack (Plate.groupby_last abs_df)))
    then if in_dec Z.eq_dec c (Plate.columns (Plate.unstack (Plate.groupby_last abs_df)))
         then Some (well_value abs_df r c) else None
    else None.
Proof.
  unfold Plate.unstack. rewrite frame_at_table. simpl.
  now rewrite groupby_last_get.
Qed.

Lemma unstack_index (abs_df : list Plate.Well) (r : string) :
  In r (Plate.index (Plate.unstack (Plate.groupby_last abs_df)))
  <-> exists w, In w abs_df /\ Plate.row w = r.
Proof.
  unfold Plate.unstack. simpl. rewrite sorted_In, unique_In.
  apply groupby_last_rows.
Qed.

Lemma unstack_columns (abs_df : list Plate.Well) (c : Z) :
  In c (Plate.columns (Plate.unstack (Plate.groupby_last abs_df)))
  <-> exists w, In w abs_df /\ Plate.col w = c.
Proof.
  unfold Plate.unstack. simpl. rewrite sorted_In, unique_In.
  apply groupby_last_cols.
Qed.

(** C9, as the code has it: the plate is what the table says it is.  The
    pivot with [reindex] has exactly the row labels and the ['column'] labels
    that occur in the table; every pair of them has a cell, holding the last
    valid measurement of that well or the [nan] marker when the table has
    none.  The pivot without [reindex] has a line for every row label and a
    column for every ['col'] label of the table, and again a cell for every
    pair.  A row or a column none of whose wells occurs in the table is not
    part of either grid: there is no cell for it. *)
Theorem heatmap_grid_spans_table_labels (abs_df : list Plate.Well) :
  (Plate.index (Plate.heatmap_data abs_df) = Plate.rows abs_df
   /\ Plate.columns (Plate.heatmap_data abs_df) = Plate.cols abs_df
   /\ rectangular (Plate.heatmap_data abs_df)
   /\ (forall w, In w abs_df ->
         In (Plate.row w) (Plate.rows abs_df)
         /\ In (Plate.column w) (Plate.cols abs_df))
   /\ (forall r c, In r (Plate.rows abs_df) -> In c (Plate.cols abs_df) ->
         Plate.frame_at (Plate.heatmap_data abs_df) r c
         = Some (well_value abs_df r c)))
  /\ (rectangular (Plate.heatmap_data_autoscale abs_df)
      /\ (forall w, In w abs_df ->
            In (Plate.row w) (Plate.index (Plate.heatmap_data_autoscale abs_df))
            /\ In (Plate.col w)
                  (Plate.columns (Plate.heatmap_data_autoscale abs_df)))
      /\ (forall r c,
            In r (Plate.index (Plate.heatmap_data_autoscale abs_df)) ->
            In c (Plate.columns (Plate.heatmap_data_autoscale abs_df)) ->
            Plate.frame_at (Plate.heatmap_data_autoscale abs_df) r c
            = Some (well_value abs_df r c)))
  /\ (forall r c,
        (forall w, In w abs_df -> ~ (Plate.row w = r /\ Plate.col w = c)) ->
        well_value abs_df r c = None)
  /\ ((forall r, In r (Plate.rows abs_df)
                 <-> exists w, In w abs_df /\ Plate.row w = r)
      /\ (forall c, In c (Plate.cols abs_df)
                    <-> exists w, In w abs_df /\ Plate.column w = c)
      /\ (forall r, In r (Plate.index (Plate.heatmap_data_autoscale abs_df))
                    <-> exists w, In w abs_df /\ Plate.row w = r)
      /\ (forall c, In c (Plate.columns (Plate.heatmap_data_autoscale abs_df))
                    <-> exists w, In w abs_df /\ Plate.col w = c))
  /\ (forall r c,
        (forall w, In w abs_df -> Plate.row w <> r)
        \/ (forall w, In w abs_df -> Plate.column w <> c) ->
        Plate.frame_at (Plate.heatmap_data abs_df) r c = None)
  /\ (forall r c,
        (forall w, In w abs_df -> Plate.row w <> r)
        \/ (forall w, In w abs_df -> Plate.col w <> c) ->
        Plate.frame_at (Plate.heatmap_data_autoscale abs_df) r c = None).
Proof.
  assert (Hrows : forall r, In r (Plate.rows abs_df)
                            <-> exists w, In w abs_df /\ Plate.row w = r).
  { intros r. unfold Plate.rows. rewrite sorted_In, unique_In, in_map_iff.
    split; intros (w & H1 & H2); exists w; tauto. }
  assert (Hcols : forall c, In c (Plate.cols abs_df)
                            <-> exists w, In w abs_df /\ Plate.column w = c).
  { intros c. unfold Plate.cols. rewrite sorted_In, unique_In, in_map_iff.
    split; intros (w & H1 & H2); exists w; tauto. }
  split; [| split; [| split; [| split; [| split]]]].
  - unfold Plate.heatmap_data, Plate.reindex.
    split; [reflexivity |]. split; [reflexivity |].
    split; [apply table_rectangular |]. split.
    + intros w Hw. unfold Plate.rows, Plate.cols.
      split; apply sorted_In, unique_In, in_map; exact Hw.
    + intros r c Hr Hc. rewrite frame_at_table.
      destruct (in_dec string_dec r (Plate.rows abs_df)); [| contradiction].
      destruct (in_dec Z.eq_dec c (Plate.cols abs_df)); [| contradiction].
      f_equal. rewrite unstack_at.
      destruct (in_dec string_dec r _) as [_ | Nr].
      * destruct (in_dec Z.eq_dec c _) as [_ | Nc]; [reflexivity |].
        symmetry. apply well_value_absent. intros w Hw [_ Ec]. apply Nc.
        apply unstack_columns. now exists w.
      * symmetry. apply well_value_absent. intros w Hw [Er _]. apply Nr.
        apply unstack_index. now exists w.
  - unfold Plate.heatmap_data_autoscale. split; [| split].
    + unfold Plate.unstack. apply table_rectangular.
    + intros w Hw. split.
      * apply unstack_index. now exists w.
      * apply unstack_columns. now exists w.
    + intros r c Hr Hc. rewrite unstack_at.
      destruct (in_dec string_dec r _); [| contradiction].
      destruct (in_dec Z.eq_dec c _); [reflexivity | contradiction].
  - apply well_value_absent.
  - split; [exact Hrows |]. split; [exact Hcols |].
    split; [apply unstack_index | apply unstack_columns].
  - intros r c Habs. unfold Plate.heatmap_data, Plate.reindex.
    rewrite frame_at_table.
    destruct (in_dec string_dec r (Plate.rows abs_df)) as [Hr | _];
      [| reflexivity].
    destruct (in_dec Z.eq_dec c (Plate.cols abs_df)) as [Hc | _];
      [| reflexivity].
    exfalso. apply Hrows in Hr. apply Hcols in Hc.
    destruct Hr as (w1 & Hw1 & E1), Hc as (w2 & Hw2 & E2).
    destruct Habs as [Habs | Habs];
      [exact (Habs w1 Hw1 E1) | exact (Habs w2 Hw2 E2)].
  - intros r c Habs. unfold Plate.heatmap_data_autoscale.
    rewrite unstack_at.
    destruct (in_dec string_dec r _) as [Hr | _]; [| reflexivity].
    destruct (in_dec Z.eq_dec c _) as [Hc | _]; [| reflexivity].
    exfalso. apply unstack_index in Hr. apply unstack_columns in Hc.
    destruct Hr as (w1 & Hw1 & E1), Hc as (w2 & Hw2 & E2).
    destruct Habs as [Habs | Habs];
      [exact (Habs w1 Hw1 E1) | exact (Habs w2 Hw2 E2)].
Qed.

(** A table with the single well A1: both grids are 1 x 1.  The wells of
    row B and of column 2, which the table does not mention, have no cell,
    neither a [nan] one nor any other. *)
Lemma one_well_counterexample :
  Plate.heatmap_data [Plate.mkWell "A" 1 1 (Some 1)]
  = Plate.mkFrame ["A"%string] [1%Z] [[Some 1]]
  /\ Plate.heatmap_data_autoscale [Plate.mkWell "A" 1 1 (Some 1)]
     = Plate.mkFrame ["A"%string] [1%Z] [[Some 1]]
  /\ Plate.frame_at (Plate.heatmap_data [Plate.mkWell "A" 1 1 (Some 1)])
                    "B" 2 = None
  /\ Plate.frame_at (Plate.heatmap_data [Plate.mkWell "A" 1 1 (Some 1)])
                    "A" 2 = None
  /\ Plate.frame_at (Plate.heatmap_data [Plate.mkWell "A" 1 1 (Some 1)])
                    "B" 1 = None
  /\ Plate.frame_at
       (Plate.heatmap_data_autoscale [Plate.mkWell "A" 1 1 (Some 1)])
       "B" 2 = None.
Proof. repeat split; reflexivity. Qed.

(* ----------------------------------------------------------------- *)
(** ** What binary64 does to the exact statements *)

Lemma two_pow_mod_3 (k : nat) :
  exists q, (2 ^ Z.of_nat k = 3 * q + 1 \/ 2 ^ Z.of_nat k = 3 * q + 2)%Z.
Proof.
  induction k as [| k (q & IH)].
  - exists 0%Z. now left.
  - rewrite Nat2Z.inj_succ, Z.pow_succ_r by lia.
    destruct IH as [-> | ->].
    + exists (2 * q)%Z. right. ring.
    + exists (2 * q + 1)%Z. left. ring.
Qed.

Lemma two_pow_mod_7 (k : nat) :
  exists q, (2 ^ Z.of_nat k = 7 * q + 1 \/ 2 ^ Z.of_nat k = 7 * q + 2
             \/ 2 ^ Z.of_nat k = 7 * q + 4)%Z.
Proof.
  induction k as [| k (q & IH)].
  - exists 0%Z. now left.
  - rewrite Nat2Z.inj_succ, Z.pow_succ_r by lia.
    destruct IH as [-> | [-> | ->]].
    + exists (2 * q)%Z. right. left. ring.
    + exists (2 * q)%Z. right. right. ring.
    + exists (2 * q + 1)%Z. left. ring.
Qed.

(** A finite binary64 number is an integer divided by a power of two. *)
Lemma value_dyadic (f : float) (v : R) :
  Binary64.value f = Some v -> exists (m : Z) (k : nat), v * 2 ^ k = IZR m.
Proof.
  unfold Binary64.value.
  destruct (Prim2SF f) as [s | s | | s m e]; try discriminate.
  - intros E. injection E as <-. exists 0%Z, 0%nat. simpl. ring.
  - intros E. injection E as <-.
    set (sg := if s then -1 else 1).
    assert (Hsg : exists z, sg = IZR z)
      by (destruct s; [exists (-1)%Z | exists 1%Z]; reflexivity).
    destruct Hsg as (z & ->).
    destruct e as [| e | e].
    + exists (z * Zpos m)%Z, 0%nat. rewrite mult_IZR. simpl. ring.
    + exists (z * Zpos m * 2 ^ Z.of_nat (Pos.to_nat e))%Z, 0%nat.
      rewrite !mult_IZR, <- pow_IZR. simpl. ring.
    + exists (z * Zpos m)%Z, (Pos.to_nat e). rewrite mult_IZR. simpl.
      field. apply pow_nonzero. lra.
Qed.

Lemma third_not_dyadic (a : Z) (m : Z) (k : nat) :
  (exists q, a = 3 * q + 1 \/ a = 3 * q + 2)%Z ->
  IZR a / 3 * 2 ^ k <> IZR m.
Proof.
  intros (q & Ha) H.
  assert (E : (a * 2 ^ Z.of_nat k = 3 * m)%Z).
  { apply eq_IZR. rewrite !mult_IZR, <- pow_IZR.
    change (IZR 2) with 2. change (IZR 3) with 3. lra. }
  destruct (two_pow_mod_3 k) as (p & [Hp | Hp]); rewrite Hp in E;
    destruct Ha as [-> | ->]; lia.
Qed.

Lemma seventh_not_dyadic (a : Z) (m : Z) (k : nat) :
  (exists q, a = 7 * q + 4)%Z ->
  IZR a / 7 * 2 ^ k <> IZR m.
Proof.
  intros (q & ->) H.
  assert (E : ((7 * q + 4) * 2 ^ Z.of_nat k = 7 * m)%Z).
  { apply eq_IZR. rewrite !mult_IZR, <- pow_IZR.
    change (IZR 2) with 2. change (IZR 7) with 7. lra. }
  destruct (two_pow_mod_7 k) as (p & [Hp | [Hp | Hp]]); rewrite Hp in E; lia.
Qed.




(* ================================================================= *)
(** * Further properties of the notebooks *)

(* ----------------------------------------------------------------- *)
(** ** The generators with noise *)

Lemma combine_map_both (A B A' B' : Type) (f : A -> A') (g : B -> B')
    (l : list A) (l' : list B) :
  combine (map f l) (map g l') = map (fun p => (f (fst p), g (snd p))) (combine l l').
Proof.
  revert l'. induction l as [| a t IH]; intros [| b t']; simpl; try reflexivity.
  now rewrite IH.
Qed.

Lemma nth_error_combine_seq (A : Type) (l : list A) (k i : nat) (a : A) :
  nth_error l i = Some a ->
  nth_error (combine l (seq k (length l))) i = Some (a, (k + i)%nat).
Proof.
  revert k i. induction l as [| x t IH]; intros k i; [destruct i; discriminate |].
  destruct i as [| i]; simpl.
  - intros E. injection E as <-. now rewrite Nat.add_0_r.
  - intros E. rewrite (IH (S k) i E). f_equal. f_equal. lia.
Qed.

(** The samples of [simulate_absorbance], one draw each. *)
Lemma simulate_absorbance_samples (V_max K_m S : R) (time : list R)
    (epsilon path_length noise_level : R) (st : RandomState) :
  ~ noise_level < 0 ->
  Simulator.simulate_absorbance V_max K_m S time epsilon path_length
    noise_level st
  = inr (map (fun ti => pyadd (beer_lambert V_max K_m epsilon path_length S (fst ti))
                              (Fin (0 + noise_level * st (snd ti))))
             (combine time (seq 0 (length time))),
         fun i => st (length time + i)%nat).
Proof.
  intros Hn. unfold Simulator.simulate_absorbance, rand_bind, normal.
  destruct (Rlt_dec noise_level 0) as [H | _]; [contradiction |].
  unfold ret, rand_ret. rewrite !length_map, map_map.
  rewrite combine_map_both, map_map. reflexivity.
Qed.

Lemma simulate_absorbance_negative_noise (V_max K_m S : R) (time : list R)
    (epsilon path_length noise_level : R) (st : RandomState) :
  noise_level < 0 ->
  Simulator.simulate_absorbance V_max K_m S time epsilon path_length
    noise_level st = inl ValueError.
Proof.
  intros Hn. unfold Simulator.simulate_absorbance, rand_bind, normal.
  destruct (Rlt_dec noise_level 0) as [_ | H]; [reflexivity | contradiction].
Qed.

(** X4: [simulate_absorbance] raises [ValueError] exactly when
    [noise_level] is negative.  Otherwise it returns one sample per time
    point, sample [i] being the Beer-Lambert absorbance at [time[i]] plus
    [noise_level] times the [i]-th pending draw, and it consumes exactly
    [len(time)] draws of the generator. *)
Theorem simulate_absorbance_outcome (V_max K_m S : R) (time : list R)
    (epsilon path_length noise_level : R) (st : RandomState) :
  (noise_level < 0 <->
   Simulator.simulate_absorbance V_max K_m S time epsilon path_length
     noise_level st = inl ValueError)
  /\ (~ noise_level < 0 ->
      exists A_noisy st',
        Simulator.simulate_absorbance V_max K_m S time epsilon path_length
          noise_level st = inr (A_noisy, st')
        /\ length A_noisy = length time
        /\ (forall i, st' i = st (length time + i)%nat)
        /\ (forall i t, nth_error time i = Some t ->
              nth_error A_noisy i
              = Some (pyadd (beer_lambert V_max K_m epsilon path_length S t)
                            (Fin (0 + noise_level * st i))))).
Proof.
  split.
  - split; [apply simulate_absorbance_negative_noise |].
    intros H. destruct (Rlt_dec noise_level 0) as [Y | N]; [exact Y |].
    rewrite simulate_absorbance_samples in H by exact N. discriminate.
  - intros Hn. eexists. eexists.
    split; [now apply simulate_absorbance_samples |].
    split; [| split].
    + now rewrite length_map, length_combine, length_seq, Nat.min_id.
    + reflexivity.
    + intros i t Ht. rewrite nth_error_map.
      now rewrite (nth_error_combine_seq _ time 0 i t Ht).
Qed.

(** X5: the edge cases of the trace.  With [K_m <> 0], at [S = 0] every
    sample is pure noise ([noise_level] times its draw), and at any
    concentration with [K_m + S <> 0] so is the sample of [t = 0]. *)
Theorem simulate_absorbance_flat_trace (V_max K_m S : R) (time : list R)
    (epsilon path_length noise_level : R) (st : RandomState) :
  ~ noise_level < 0 -> K_m + S <> 0 ->
  exists A_noisy st',
    Simulator.simulate_absorbance V_max K_m S time epsilon path_length
      noise_level st = inr (A_noisy, st')
    /\ (forall i t, nth_error time i = Some t -> S = 0 \/ t = 0 ->
          nth_error A_noisy i = Some (Fin (noise_level * st i))).
Proof.
  intros Hn HK. eexists. eexists.
  split; [now apply simulate_absorbance_samples |].
  intros i t Ht Hz. rewrite nth_error_map.
  rewrite (nth_error_combine_seq _ time 0 i t Ht). simpl.
  rewrite beer_lambert_fin by exact HK. simpl. do 2 f_equal.
  destruct Hz as [-> | ->]; field; lra.
Qed.

Lemma simulate_absorbance_flat_trace_witness :
  exists A_noisy st',
    Simulator.simulate_absorbance 100 50 0 [0; 1; 2] 1000 1 (1 / 50)
      (fun _ => 1) = inr (A_noisy, st')
    /\ (forall i t, nth_error [0; 1; 2] i = Some t -> 0 = 0 \/ t = 0 ->
          nth_error A_noisy i = Some (Fin (1 / 50 * (fun _ => 1) i))).
Proof.
  apply (simulate_absorbance_flat_trace 100 50 0 [0; 1; 2] 1000 1 (1 / 50)
           (fun _ => 1)); lra.
Defined.

Section Blocks.

Variables (A C K : Type).
Variable f : A -> rand (list C).
Variable k : nat.
Variable P : A -> R -> C -> Prop.
Variable proj : C -> K.
Variable h : A -> list K.

(** Each element of the loop writes a block of [k] rows and consumes [k]
    draws, row [i] of the block using draw [i]. *)
Hypothesis block_spec :
  forall a st0, exists b st1,
    f a st0 = inr (b, st1)
    /\ (forall i, st1 i = st0 (k + i)%nat)
    /\ length b = k
    /\ (forall i c, nth_error b i = Some c -> P a (st0 i) c)
    /\ map proj b = h a.

(** Then the whole loop writes its rows in order, row [j] of the
    concatenation using draw [j]. *)
Lemma rand_for_each_blocks (l : list A) (st : RandomState) :
  exists bs st',
    rand_for_each f l st = inr (bs, st')
    /\ (forall i, st' i = st (k * length l + i)%nat)
    /\ length (concat bs) = (k * length l)%nat
    /\ (forall j c, nth_error (concat bs) j = Some c ->
          exists a, In a l /\ P a (st j) c)
    /\ map proj (concat bs) = flat_map h l.
Proof.
  revert st. induction l as [| a t IH]; intros st.
  - exists [], st. simpl. split; [reflexivity |].
    split; [intros i; f_equal; lia |]. split; [lia |].
    split; [intros [| j] c; discriminate | reflexivity].
  - destruct (block_spec a st) as (b & st1 & E1 & Hst1 & Hlen & HP & Hproj).
    destruct (IH st1) as (bs & st' & E2 & Hst' & Hlen' & HP' & Hproj').
    exists (b :: bs), st'. simpl. unfold rand_bind. rewrite E1, E2.
    split; [reflexivity |]. split; [| split; [| split]].
    + intros i. rewrite Hst', Hst1. f_equal. lia.
    + rewrite length_app, Hlen, Hlen'. lia.
    + intros j c Hj. destruct (lt_dec j k) as [Hlt | Hge].
      * rewrite nth_error_app1 in Hj by lia. exists a. split; [now left |].
        now apply HP.
      * rewrite nth_error_app2 in Hj by lia. rewrite Hlen in Hj.
        destruct (HP' _ _ Hj) as (a' & Ha' & Pa'). exists a'.
        split; [now right |]. rewrite Hst1 in Pa'.
        replace (k + (j - k))%nat with j in Pa' by lia. exact Pa'.
    + rewrite map_app, Hproj, Hproj'. reflexivity.
Qed.

End Blocks.

Lemma rand_for_each_raises (A B : Type) (f : A -> rand B) (e : exn)
    (l : list A) (st : RandomState) :
  l <> [] -> (forall a st0, f a st0 = inl e) -> rand_for_each f l st = inl e.
Proof.
  intros Hne Hf. destruct l as [| a t]; [contradiction |].
  simpl. unfold rand_bind. now rewrite Hf.
Qed.

Lemma nth_error_map_combine (A B C : Type) (g : A * B -> C) (l : list A)
    (l' : list B) (i : nat) (c : C) :
  nth_error (map g (combine l l')) i = Some c ->
  exists a b, nth_error l i = Some a /\ nth_error l' i = Some b /\ c = g (a, b).
Proof.
  revert l' i. induction l as [| a t IH]; intros [| b t'] [| i]; simpl;
    try discriminate.
  - intros E. injection E as <-. now exists a, b.
  - intros E. now apply IH.
Qed.

(** The frame of one trace, as either generator builds it: [len(time)] rows,
    row [i] at [time[i]] with the [i]-th draw. *)
Lemma trace_rows (X : Type) (mk : R -> pyfloat -> X) (V_max K_m S : R)
    (time : list R) (epsilon path_length noise_level : R) (st0 : RandomState) :
  ~ noise_level < 0 ->
  exists b st1,
    rand_bind
      (Simulator.simulate_absorbance V_max K_m S time epsilon path_length
         noise_level)
      (fun A_noisy =>
         rand_ret (map (fun ta => mk (fst ta) (snd ta)) (combine time A_noisy)))
      st0 = inr (b, st1)
    /\ (forall i, st1 i = st0 (length time + i)%nat)
    /\ length b = length time
    /\ (forall i c, nth_error b i = Some c ->
          exists t, In t time /\
            c = mk t (pyadd (beer_lambert V_max K_m epsilon path_length S t)
                            (Fin (0 + noise_level * st0 i))))
    /\ b = map (fun ti =>
                 mk (fst ti)
                    (pyadd (beer_lambert V_max K_m epsilon path_length S (fst ti))
                           (Fin (0 + noise_level * st0 (snd ti)))))
              (combine time (seq 0 (length time))).
Proof.
  intros Hn. unfold rand_bind.
  rewrite simulate_absorbance_samples by exact Hn.
  eexists. eexists. unfold rand_ret, ret. split; [reflexivity |].
  split; [reflexivity |].
  assert (Hrows :
    map (fun ta => mk (fst ta) (snd ta))
      (combine time
         (map (fun ti =>
                 pyadd (beer_lambert V_max K_m epsilon path_length S (fst ti))
                       (Fin (0 + noise_level * st0 (snd ti))))
              (combine time (seq 0 (length time)))))
    = map (fun ti =>
             mk (fst ti)
                (pyadd (beer_lambert V_max K_m epsilon path_length S (fst ti))
                       (Fin (0 + noise_level * st0 (snd ti)))))
          (combine time (seq 0 (length time)))).
  { generalize 0%nat. induction time as [| t ts IH]; intros n; simpl;
      [reflexivity |]. f_equal. apply IH. }
  rewrite Hrows. split; [| split].
  - now rewrite length_map, length_combine, length_seq, Nat.min_id.
  - intros i c Hi. apply nth_error_map_combine in Hi.
    destruct Hi as (t & n & Ht & Hn' & ->). exists t.
    split; [eapply nth_error_In; exact Ht |].
    assert (En : n = i).
    { assert (Hi : (i < length time)%nat) by (apply nth_error_Some; congruence).
      apply nth_error_nth with (d := 0%nat) in Hn'.
      rewrite seq_nth in Hn' by exact Hi. lia. }
    subst n. reflexivity.
  - reflexivity.
Qed.

Lemma map_fst_combine_seq (A B : Type) (g : A -> B) (l : list A) (k : nat) :
  map (fun ti => g (fst ti)) (combine l (seq k (length l))) = map g l.
Proof.
  revert k. induction l as [| a t IH]; intros k; simpl; [reflexivity |].
  now rewrite IH.
Qed.

Lemma rand_for_each_length (A B : Type) (f : A -> rand B) (l : list A)
    (st st' : RandomState) (bs : list B) :
  rand_for_each f l st = inr (bs, st') -> length bs = length l.
Proof.
  revert st st' bs. induction l as [| a t IH]; intros st st' bs; simpl.
  - unfold rand_ret, ret. intros E. now injection E as <- _.
  - unfold rand_bind. destruct (f a st) as [e | [b st1]]; [discriminate |].
    destruct (rand_for_each f t st1) as [e | [bs' st2]] eqn:E2; [discriminate |].
    unfold rand_ret, ret. intros E. injection E as <- _. simpl.
    f_equal. eapply IH. exact E2.
Qed.

(** X6: the data-generation cell of the simulator notebook raises
    [ValueError] exactly when there is no concentration ([pd.concat] of an
    empty list) or [noise_level] is negative.  Otherwise the frame has
    [len(time)] rows per concentration, in loop order, row [j] carrying the
    Beer-Lambert absorbance of its own concentration and time plus
    [noise_level] times draw [j]: no two rows share a draw. *)
Theorem generate_outcome (V_max K_m : R) (concs time : list R)
    (epsilon path_length noise_level : R) (st : RandomState) :
  (concs = [] \/ noise_level < 0 <->
   Simulator.generate V_max K_m concs time epsilon path_length noise_level st
   = inl ValueError)
  /\ (concs <> [] -> ~ noise_level < 0 ->
      exists df st',
        Simulator.generate V_max K_m concs time epsilon path_length
          noise_level st = inr (df, st')
        /\ (forall i, st' i = st (length time * length concs + i)%nat)
        /\ length df = (length time * length concs)%nat
        /\ map (fun r => (Simulator.Time r, Simulator.Substrate_Concentration r)) df
           = flat_map (fun S => map (fun t => (t, S)) time) concs
        /\ (forall j r, nth_error df j = Some r ->
              Simulator.Absorbance r
              = pyadd (beer_lambert V_max K_m epsilon path_length
                         (Simulator.Substrate_Concentration r) (Simulator.Time r))
                      (Fin (0 + noise_level * st j)))).
Proof.
  assert (Hok : concs <> [] -> ~ noise_level < 0 ->
      exists df st',
        Simulator.generate V_max K_m concs time epsilon path_length
          noise_level st = inr (df, st')
        /\ (forall i, st' i = st (length time * length concs + i)%nat)
        /\ length df = (length time * length concs)%nat
        /\ map (fun r => (Simulator.Time r, Simulator.Substrate_Concentration r)) df
           = flat_map (fun S => map (fun t => (t, S)) time) concs
        /\ (forall j r, nth_error df j = Some r ->
              Simulator.Absorbance r
              = pyadd (beer_lambert V_max K_m epsilon path_length
                         (Simulator.Substrate_Concentration r) (Simulator.Time r))
                      (Fin (0 + noise_level * st j)))).
  { intros Hne Hn. unfold Simulator.generate. unfold rand_bind at 1.
    match goal with
    | |- context [rand_for_each ?f concs st] =>
        destruct (rand_for_each_blocks _ _ _ f (length time)
                    (fun S z r =>
                       Simulator.Substrate_Concentration r = S /\
                       Simulator.Absorbance r
                       = pyadd (beer_lambert V_max K_m epsilon path_length S
                                  (Simulator.Time r))
                               (Fin (0 + noise_level * z)))
                    (fun r => (Simulator.Time r, Simulator.Substrate_Concentration r))
                    (fun S => map (fun t => (t, S)) time))
          with (l := concs) (st := st)
          as (bs & st' & E & Hst & Hlen & HP & Hproj)
    end.
    - intros S st0.
      destruct (trace_rows _ (fun t a => Simulator.mkRow t a S) V_max K_m S time
                  epsilon path_length noise_level st0 Hn)
        as (b & st1 & E & Hst & Hlen & HP & Hb).
      exists b, st1. split; [exact E |]. split; [exact Hst |].
      split; [exact Hlen |]. split.
      + intros i c Hc. destruct (HP i c Hc) as (t & _ & ->). now split.
      + rewrite Hb, map_map. simpl.
        apply (map_fst_combine_seq _ _ (fun t => (t, S))).
    - rewrite E. pose proof (rand_for_each_length _ _ _ _ _ _ _ E) as Hbs.
      destruct bs as [| b0 bs'].
      + destruct concs; [contradiction | discriminate].
      + exists (concat (b0 :: bs')), st'. split; [reflexivity |].
        split; [exact Hst |]. split; [exact Hlen |]. split; [exact Hproj |].
        intros j r Hj. destruct (HP j r Hj) as (S & _ & <- & HA). exact HA. }
  split; [| exact Hok].
  split.
  - intros [-> | Hn]; [reflexivity |].
    unfold Simulator.generate. unfold rand_bind at 1.
    destruct concs as [| S0 rest]; [reflexivity |].
    rewrite rand_for_each_raises with (e := ValueError); [reflexivity | discriminate |].
    intros S st0. unfold rand_bind.
    now rewrite simulate_absorbance_negative_noise.
  - intros H. destruct concs as [| S0 rest]; [now left |]. right.
    destruct (Rlt_dec noise_level 0) as [Y | N]; [exact Y |].
    destruct Hok as (df & st' & E & _); [discriminate | exact N |].
    rewrite E in H. discriminate.
Qed.

Lemma replicate_range_In (n replicate : Z) :
  In replicate (Simulator.replicate_range n) <-> (1 <= replicate <= n)%Z.
Proof.
  unfold Simulator.replicate_range. rewrite in_map_iff. split.
  - intros (i & <- & Hi). apply in_seq in Hi. lia.
  - intros H. exists (Z.to_nat replicate). split; [lia |]. apply in_seq. lia.
Qed.

Lemma replicate_range_NoDup (n : Z) : NoDup (Simulator.replicate_range n).
Proof.
  unfold Simulator.replicate_range. apply Finite.Injective_map_NoDup.
  - intros a b. apply Nat2Z.inj.
  - apply seq_NoDup.
Qed.

Lemma replicate_range_length (n : Z) :
  length (Simulator.replicate_range n) = Z.to_nat n.
Proof. unfold Simulator.replicate_range. now rewrite length_map, length_seq. Qed.

Lemma save_simulated_rows (V_max K_m : R) (concs time : list R)
    (epsilon path_length noise_level : R) (n_replicates : Z)
    (st : RandomState) :
  concs = [] \/ Simulator.replicate_range n_replicates = []
                \/ ~ noise_level < 0 ->
      exists df st',
        Simulator.save_simulated_absorbance_data V_max K_m concs time epsilon
          path_length noise_level n_replicates st = inr (df, st')
        /\ (forall i,
              st' i = st (length time * Z.to_nat n_replicates * length concs + i)%nat)
        /\ length df = (length time * Z.to_nat n_replicates * length concs)%nat
        /\ map (fun r => (Csv.Time r, Csv.Substrate_Concentration r, Csv.Replicate r)) df
           = flat_map
               (fun S =>
                  flat_map (fun replicate => map (fun t => (t, S, replicate)) time)
                           (Simulator.replicate_range n_replicates))
               concs
        /\ (forall j r, nth_error df j = Some r ->
              Csv.Absorbance r
              = pyadd (beer_lambert V_max K_m epsilon path_length
                         (Csv.Substrate_Concentration r) (Csv.Time r))
                      (Fin (0 + noise_level * st j))).
Proof.
  assert (Hinner : forall S st0,
    Simulator.replicate_range n_replicates = [] \/ ~ noise_level < 0 ->
    exists b st1,
      rand_bind
        (rand_for_each
           (fun replicate =>
              rand_bind
                (Simulator.simulate_absorbance V_max K_m S time epsilon
                   path_length noise_level)
                (fun A_noisy =>
                   rand_ret (map (fun ta => Csv.mkRow (fst ta) (snd ta) S replicate)
                                 (combine time A_noisy))))
           (Simulator.replicate_range n_replicates))
        (fun blocks => rand_ret (concat blocks)) st0 = inr (b, st1)
      /\ (forall i, st1 i = st0 (length time * Z.to_nat n_replicates + i)%nat)
      /\ length b = (length time * Z.to_nat n_replicates)%nat
      /\ (forall i c, nth_error b i = Some c ->
            Csv.Substrate_Concentration c = S /\
            Csv.Absorbance c
            = pyadd (beer_lambert V_max K_m epsilon path_length S (Csv.Time c))
                    (Fin (0 + noise_level * st0 i)))
      /\ map (fun r => (Csv.Time r, Csv.Substrate_Concentration r, Csv.Replicate r)) b
         = flat_map (fun replicate => map (fun t => (t, S, replicate)) time)
                    (Simulator.replicate_range n_replicates)).
  { intros S st0 Hcase. unfold rand_bind at 1.
    rewrite <- (replicate_range_length n_replicates).
    destruct Hcase as [Hnil | Hn].
    - rewrite Hnil. simpl. exists [], st0. unfold rand_ret, ret.
      split; [reflexivity |]. split; [intros i; f_equal; lia |].
      split; [simpl; lia |].
      split; [intros [| i] c; discriminate | reflexivity].
    - match goal with
      | |- context [rand_for_each ?f ?rs st0] =>
          destruct (rand_for_each_blocks _ _ _ f (length time)
                      (fun (replicate : Z) z c =>
                         Csv.Substrate_Concentration c = S /\
                         Csv.Absorbance c
                         = pyadd (beer_lambert V_max K_m epsilon path_length S
                                    (Csv.Time c))
                                 (Fin (0 + noise_level * z)))
                      (fun r => (Csv.Time r, Csv.Substrate_Concentration r,
                                 Csv.Replicate r))
                      (fun replicate => map (fun t => (t, S, replicate)) time))
            with (l := rs) (st := st0)
            as (bs & st1 & E & Hst & Hlen & HP & Hproj)
      end.
      + intros replicate st2.
        destruct (trace_rows _ (fun t a => Csv.mkRow t a S replicate) V_max K_m S
                    time epsilon path_length noise_level st2 Hn)
          as (b & st3 & E & Hst & Hlen & HP & Hb).
        exists b, st3. split; [exact E |]. split; [exact Hst |].
        split; [exact Hlen |]. split.
        * intros i c Hc. destruct (HP i c Hc) as (t & _ & ->). now split.
        * rewrite Hb, map_map. simpl.
          apply (map_fst_combine_seq _ _ (fun t => (t, S, replicate))).
      + rewrite E. exists (concat bs), st1. unfold rand_ret, ret.
        split; [reflexivity |]. split; [exact Hst |]. split; [exact Hlen |].
        split; [| exact Hproj].
        intros i c Hc. destruct (HP i c Hc) as (_ & _ & H). exact H. }
  intros [-> | Hcase].
    - exists [], st. simpl. unfold rand_bind, rand_ret, ret. simpl.
      split; [reflexivity |]. split; [intros i; f_equal; lia |].
      split; [lia |]. split; [reflexivity | intros [| j] r; discriminate].
    - unfold Simulator.save_simulated_absorbance_data. unfold rand_bind at 1.
      match goal with
      | |- context [rand_for_each ?f concs st] =>
          destruct (rand_for_each_blocks _ _ _ f
                      (length time * Z.to_nat n_replicates)%nat
                      (fun S z c =>
                         Csv.Substrate_Concentration c = S /\
                         Csv.Absorbance c
                         = pyadd (beer_lambert V_max K_m epsilon path_length S
                                    (Csv.Time c))
                                 (Fin (0 + noise_level * z)))
                      (fun r => (Csv.Time r, Csv.Substrate_Concentration r,
                                 Csv.Replicate r))
                      (fun S =>
                         flat_map
                           (fun replicate => map (fun t => (t, S, replicate)) time)
                           (Simulator.replicate_range n_replicates)))
            with (l := concs) (st := st)
            as (bs & st' & E & Hst & Hlen & HP & Hproj)
      end.
      + intros S st0. apply Hinner. exact Hcase.
      + rewrite E. exists (concat bs), st'. unfold rand_ret, ret.
        split; [reflexivity |]. split; [exact Hst |]. split; [exact Hlen |].
        split; [exact Hproj |].
        intros j r Hj. destruct (HP j r Hj) as (S & _ & <- & HA). exact HA.
Qed.

(** X7: [save_simulated_absorbance_data] raises [ValueError] exactly when
    [noise_level] is negative and the loops run at least once.  Otherwise
    the table has [len(time)] rows for every (concentration, replicate) pair,
    replicates numbered from 1, in the order of the nested loops; row [j]
    carries the Beer-Lambert absorbance of its own concentration and time
    plus [noise_level] times draw [j], so every replicate has its own noise,
    and the generator is advanced by the number of rows. *)
Theorem save_simulated_outcome (V_max K_m : R) (concs time : list R)
    (epsilon path_length noise_level : R) (n_replicates : Z)
    (st : RandomState) :
  (concs <> [] /\ (1 <= n_replicates)%Z /\ noise_level < 0 <->
   Simulator.save_simulated_absorbance_data V_max K_m concs time epsilon
     path_length noise_level n_replicates st = inl ValueError)
  /\ (~ (concs <> [] /\ (1 <= n_replicates)%Z /\ noise_level < 0) ->
      exists df st',
        Simulator.save_simulated_absorbance_data V_max K_m concs time epsilon
          path_length noise_level n_replicates st = inr (df, st')
        /\ (forall i,
              st' i = st (length time * Z.to_nat n_replicates * length concs + i)%nat)
        /\ length df = (length time * Z.to_nat n_replicates * length concs)%nat
        /\ map (fun r => (Csv.Time r, Csv.Substrate_Concentration r, Csv.Replicate r)) df
           = flat_map
               (fun S =>
                  flat_map (fun replicate => map (fun t => (t, S, replicate)) time)
                           (Simulator.replicate_range n_replicates))
               concs
        /\ (forall j r, nth_error df j = Some r ->
              Csv.Absorbance r
              = pyadd (beer_lambert V_max K_m epsilon path_length
                         (Csv.Substrate_Concentration r) (Csv.Time r))
                      (Fin (0 + noise_level * st j)))).
Proof.
  pose proof (save_simulated_rows V_max K_m concs time epsilon path_length
                noise_level n_replicates st) as Hok.
  assert (Hnil : Simulator.replicate_range n_replicates = [] <-> ~ (1 <= n_replicates)%Z).
  { split.
    - intros E H1. assert (Hin : In 1%Z (Simulator.replicate_range n_replicates))
        by (apply replicate_range_In; lia).
      rewrite E in Hin. contradiction.
    - intros H. pose proof (replicate_range_length n_replicates) as Hl.
      replace (Z.to_nat n_replicates) with 0%nat in Hl by lia.
      now apply length_zero_iff_nil. }
  split.
  - split.
    + intros (Hc & H1 & Hn).
      unfold Simulator.save_simulated_absorbance_data. unfold rand_bind at 1.
      rewrite rand_for_each_raises with (e := ValueError);
        [reflexivity | exact Hc |].
      intros S st0. unfold rand_bind at 1.
      rewrite rand_for_each_raises with (e := ValueError); [reflexivity | |].
      * intros E. apply Hnil in E. contradiction.
      * intros replicate st1. unfold rand_bind.
        now rewrite simulate_absorbance_negative_noise.
    + intros H. destruct concs as [| S0 rest] eqn:Ec.
      * destruct Hok as (df & st' & E & _); [now left |].
        rewrite E in H. discriminate.
      * destruct (Z_le_dec 1 n_replicates) as [H1 | H1].
        -- destruct (Rlt_dec noise_level 0) as [Y | N].
           ++ repeat split; [discriminate | exact H1 | exact Y].
           ++ destruct Hok as (df & st' & E & _); [right; now right |].
              rewrite E in H. discriminate.
        -- destruct Hok as (df & st' & E & _); [right; left; now apply Hnil |].
           rewrite E in H. discriminate.
  - intros Hnot. apply Hok.
    destruct concs as [| S0 rest]; [now left |]. right.
    destruct (Z_le_dec 1 n_replicates) as [H1 | H1]; [| left; now apply Hnil].
    right. intros Hn. apply Hnot. repeat split; [discriminate | exact H1 | exact Hn].
Qed.

(* ----------------------------------------------------------------- *)
(** ** Generated tables through the estimator's grouping *)

Lemma map_of_flat_map (A B C : Type) (g : B -> C) (h : A -> list B) (l : list A) :
  map g (flat_map h l) = flat_map (fun a => map g (h a)) l.
Proof.
  induction l as [| a t IH]; simpl; [reflexivity |]. now rewrite map_app, IH.
Qed.

Lemma remove_unique_run (A : Type) (dec : forall a b : A, {a = b} + {a <> b})
    (a : A) (run l : list A) :
  (forall x, In x run -> x = a) ->
  remove dec a (unique dec (run ++ l)) = remove dec a (unique dec l).
Proof.
  induction run as [| x r IH]; intros H; simpl; [reflexivity |].
  rewrite (H x (or_introl eq_refl)).
  destruct (dec a a) as [_ | N]; [| now elim N].
  rewrite remove_remove_eq. apply IH. intros y Hy. apply H. now right.
Qed.

(** Runs of equal values collapse to their first element. *)
Lemma unique_flat_map_runs (A : Type) (dec : forall a b : A, {a = b} + {a <> b})
    (h : A -> list A) (l : list A) :
  (forall a, h a <> [] /\ forall x, In x (h a) -> x = a) ->
  unique dec (flat_map h l) = unique dec l.
Proof.
  intros H. induction l as [| a t IH]; simpl; [reflexivity |].
  destruct (H a) as [Hne Hall]. destruct (h a) as [| x r]; [contradiction |].
  simpl. rewrite (Hall x (or_introl eq_refl)). f_equal.
  rewrite remove_unique_run by (intros y Hy; apply Hall; now right).
  now rewrite IH.
Qed.

Section KeyedTable.

Variables (concs time : list R) (reps : list Z) (df : list Csv.Row).

Hypothesis keys :
  map (fun r => (Csv.Time r, Csv.Substrate_Concentration r, Csv.Replicate r)) df
  = flat_map (fun S => flat_map (fun replicate => map (fun t => (t, S, replicate)) time)
                                reps) concs.
Hypothesis time_nonempty : time <> [].
Hypothesis reps_nonempty : reps <> [].

Lemma keyed_row (r : Csv.Row) :
  In r df ->
  In (Csv.Time r) time /\ In (Csv.Substrate_Concentration r) concs
  /\ In (Csv.Replicate r) reps.
Proof.
  intros Hr.
  apply (in_map (fun r => (Csv.Time r, Csv.Substrate_Concentration r,
                           Csv.Replicate r))) in Hr.
  rewrite keys in Hr. apply in_flat_map in Hr. destruct Hr as (S & HS & Hr).
  apply in_flat_map in Hr. destruct Hr as (replicate & Hrep & Hr).
  apply in_map_iff in Hr. destruct Hr as (t & E & Ht).
  injection E as <- <- <-. auto.
Qed.

Lemma keyed_has_row (t S : R) (replicate : Z) :
  In t time -> In S concs -> In replicate reps ->
  exists r, In r df /\ Csv.Time r = t /\ Csv.Substrate_Concentration r = S
            /\ Csv.Replicate r = replicate.
Proof.
  intros Ht HS Hrep.
  assert (Hk : In (t, S, replicate)
                  (map (fun r => (Csv.Time r, Csv.Substrate_Concentration r,
                                  Csv.Replicate r)) df)).
  { rewrite keys. apply in_flat_map. exists S. split; [exact HS |].
    apply in_flat_map. exists replicate. split; [exact Hrep |].
    apply in_map_iff. now exists t. }
  apply in_map_iff in Hk. destruct Hk as (r & E & Hr). injection E as <- <- <-.
  now exists r.
Qed.

Lemma keyed_concentrations :
  unique Req_dec_T (map Csv.Substrate_Concentration df) = unique Req_dec_T concs.
Proof.
  replace (map Csv.Substrate_Concentration df)
    with (map (fun k : R * R * Z => snd (fst k))
              (map (fun r => (Csv.Time r, Csv.Substrate_Concentration r,
                              Csv.Replicate r)) df))
    by (rewrite map_map; reflexivity).
  rewrite keys, map_of_flat_map. apply unique_flat_map_runs.
  intros S. split.
  - destruct reps as [| r0 rs]; [contradiction |].
    destruct time as [| t0 ts]; [contradiction |]. discriminate.
  - intros x Hx. apply in_map_iff in Hx. destruct Hx as (k & <- & Hk).
    apply in_flat_map in Hk. destruct Hk as (replicate & _ & Hk).
    apply in_map_iff in Hk. destruct Hk as (t & <- & _). reflexivity.
Qed.

Lemma keyed_replicates (S : R) (replicate : Z) :
  In S concs ->
  (In replicate (replicates_of df S) <-> In replicate reps).
Proof.
  intros HS. unfold replicates_of, rows_of. rewrite unique_In, in_map_iff. split.
  - intros (r & <- & Hr). apply filter_In in Hr. destruct Hr as [Hr _].
    now apply keyed_row in Hr.
  - intros Hrep.
    assert (Hex : exists t0, In t0 time).
    { clear keys. destruct time as [| t0 ts]; [contradiction |].
      exists t0. now left. }
    destruct Hex as (t0 & Ht0).
    destruct (keyed_has_row t0 S replicate) as (r & Hr & _ & ES & Erep);
      [exact Ht0 | exact HS | exact Hrep |].
    exists r. split; [exact Erep |]. apply filter_In.
    split; [exact Hr | now apply Reqb_true].
Qed.

End KeyedTable.

(** X8: the estimator regroups a generated table as it was generated, at
    any noise level: with a non-empty time axis and at least one replicate,
    the concentrations it finds are the requested ones (first occurrences, in
    order), and for each of them the replicates are exactly
    [1 .. n_replicates]; this is also the first component of what
    [calculate_initial_velocities] returns. *)
Theorem generated_table_grouping (V_max K_m : R) (concs time : list R)
    (epsilon path_length noise_level : R) (n_replicates : Z)
    (st : RandomState) :
  ~ noise_level < 0 -> time <> [] -> (1 <= n_replicates)%Z ->
  exists df st',
    Simulator.save_simulated_absorbance_data V_max K_m concs time epsilon
      path_length noise_level n_replicates st = inr (df, st')
    /\ unique Req_dec_T (map Csv.Substrate_Concentration df)
       = unique Req_dec_T concs
    /\ (forall S, In S concs ->
          length (replicates_of df S) = Z.to_nat n_replicates
          /\ forall replicate,
               In replicate (replicates_of df S)
               <-> (1 <= replicate <= n_replicates)%Z)
    /\ (forall out,
          Estimator.calculate_initial_velocities df epsilon path_length
            = inr out ->
          fst (fst out) = unique Req_dec_T concs).
Proof.
  intros Hn Ht H1.
  destruct (save_simulated_rows V_max K_m concs time epsilon path_length
              noise_level n_replicates st)
    as (df & st' & E & _ & _ & Hkeys & _); [tauto |].
  assert (Hreps : Simulator.replicate_range n_replicates <> []).
  { intros En. assert (Hin : In 1%Z (Simulator.replicate_range n_replicates))
      by (apply replicate_range_In; lia).
    rewrite En in Hin. contradiction. }
  pose proof (keyed_concentrations concs time _ df Hkeys Ht Hreps) as Hcs.
  exists df, st'. split; [exact E |]. split; [exact Hcs |]. split.
  - intros S HS.
    assert (Hiff : forall replicate,
              In replicate (replicates_of df S)
              <-> In replicate (Simulator.replicate_range n_replicates))
      by (intros replicate; now apply (keyed_replicates concs time _ df Hkeys Ht)).
    split.
    + rewrite <- replicate_range_length. apply Permutation_length.
      apply NoDup_Permutation;
        [apply unique_NoDup | apply replicate_range_NoDup | exact Hiff].
    + intros replicate. rewrite Hiff. apply replicate_range_In.
  - intros out Hout. apply calculate_inr in Hout.
    destruct Hout as (stats & _ & ->). exact Hcs.
Qed.

Lemma generated_table_grouping_witness :
  exists df st',
    Simulator.save_simulated_absorbance_data 100 50 [10; 20; 10] [0; 1] 1000 1
      (1 / 50) 3 (fun _ => 1) = inr (df, st')
    /\ unique Req_dec_T (map Csv.Substrate_Concentration df)
       = unique Req_dec_T [10; 20; 10]
    /\ (forall S, In S [10; 20; 10] ->
          length (replicates_of df S) = Z.to_nat 3
          /\ forall replicate,
               In replicate (replicates_of df S) <-> (1 <= replicate <= 3)%Z)
    /\ (forall out,
          Estimator.calculate_initial_velocities df 1000 1 = inr out ->
          fst (fst out) = unique Req_dec_T [10; 20; 10]).
Proof.
  apply (generated_table_grouping 100 50 [10; 20; 10] [0; 1] 1000 1 (1 / 50) 3
           (fun _ => 1)).
  - lra.
  - discriminate.
  - lia.
Defined.

(* ----------------------------------------------------------------- *)
(** ** The CSV notebook from the table to the fitted curve *)

Lemma all_finite_none_in (l : list pyfloat) :
  all_finite l = None -> In NonFin l.
Proof.
  induction l as [| a t IH]; simpl; [discriminate |].
  destruct a as [r |]; [| now left].
  destruct (all_finite t); [discriminate |]. intros _. right. now apply IH.
Qed.

Lemma fit_short_input (leastsq : (R * R -> list pyfloat) -> R * R -> (R * R) * Z)
    (xdata : list R) (ydata : list pyfloat) (p0 : R * R) :
  length xdata = length ydata -> (length ydata < 2)%nat ->
  Fitter.fit_michaelis_menten leastsq xdata ydata p0 = inl ValueError \/
  Fitter.fit_michaelis_menten leastsq xdata ydata p0 = inl TypeError.
Proof.
  intros Hlen Hlt. unfold Fitter.fit_michaelis_menten, Fitter.curve_fit.
  destruct (all_finite ydata) as [y |] eqn:Ey; [| now left].
  apply all_finite_length in Ey.
  destruct y as [| y0 ys]; [now left |].
  unfold Fitter.broadcast. rewrite Ey, Hlen, Nat.eqb_refl.
  assert (Hc : length (combine xdata (y0 :: ys)) = length ydata).
  { rewrite length_combine, Ey, Hlen. apply Nat.min_id. }
  rewrite Hc. apply Nat.ltb_lt in Hlt. rewrite Hlt. now right.
Qed.

Lemma fit_nonfinite_input (leastsq : (R * R -> list pyfloat) -> R * R -> (R * R) * Z)
    (xdata : list R) (ydata : list pyfloat) (p0 : R * R) :
  In NonFin ydata ->
  Fitter.fit_michaelis_menten leastsq xdata ydata p0 = inl ValueError.
Proof.
  intros H. unfold Fitter.fit_michaelis_menten, Fitter.curve_fit.
  now rewrite (all_finite_nonfin ydata H).
Qed.

Lemma zero_constants_report (df : list Csv.Row) (epsilon path_length : R)
    (cs : list R) (ms ss : list pyfloat) :
  epsilon * path_length = 0 ->
  Estimator.calculate_initial_velocities df epsilon path_length
    = inr (cs, ms, ss) ->
  Forall (fun m => m = NonFin) ms /\ Forall (fun s => s = NonFin) ss.
Proof.
  intros Hz H. apply calculate_inr in H.
  destruct H as (stats & F & E). injection E as -> -> ->.
  assert (Hall : Forall (fun p => p = (NonFin, NonFin)) stats).
  { assert (Hcs : forall S,
              In S (unique Req_dec_T (map Csv.Substrate_Concentration df)) ->
              In S (map Csv.Substrate_Concentration df))
      by (intros S; apply unique_In).
    induction F as [| S p cs' stats' Hp _ IH]; constructor.
    - apply (velocity_of_zero_constants df epsilon path_length S);
        [exact Hz | apply Hcs; now left | exact Hp].
    - apply IH. intros S' HS'. apply Hcs. now right. }
  split; apply Forall_forall; intros y Hy; apply in_map_iff in Hy;
    destruct Hy as (p & <- & Hp); rewrite Forall_forall in Hall;
    now rewrite (Hall p Hp).
Qed.

(** X9: in the CSV notebook a table never yields fit parameters when it has
    fewer than two distinct concentrations, or when [epsilon * path_length]
    is zero: the cell raises [LinAlgError] (estimator), or [ValueError] or
    [TypeError] ([curve_fit]); whatever the table, the only exceptions of the
    cell are these three and the solver's [RuntimeError]. *)
Theorem fit_external_rejects (leastsq : (R * R -> list pyfloat) -> R * R -> (R * R) * Z)
    (df : list Csv.Row) (epsilon path_length : R) :
  ((length (unique Req_dec_T (map Csv.Substrate_Concentration df)) < 2)%nat ->
   exists e, ExternalFit.fit_external leastsq df epsilon path_length = inl e
             /\ (e = LinAlgError \/ e = ValueError \/ e = TypeError))
  /\ (epsilon * path_length = 0 ->
      exists e, ExternalFit.fit_external leastsq df epsilon path_length = inl e
                /\ (e = LinAlgError \/ e = ValueError))
  /\ (forall e, ExternalFit.fit_external leastsq df epsilon path_length = inl e ->
        e = LinAlgError \/ e = ValueError \/ e = TypeError \/ e = RuntimeError).
Proof.
  unfold ExternalFit.fit_external.
  destruct (Estimator.calculate_initial_velocities df epsilon path_length)
    as [e0 | [[cs ms] ss]] eqn:E; simpl.
  - apply calculate_raises in E. destruct E as [-> _].
    split; [| split].
    + intros _. exists LinAlgError. auto.
    + intros _. exists LinAlgError. auto.
    + intros e H. injection H as <-. auto.
  - pose proof E as E'. apply calculate_inr in E'.
    destruct E' as (stats & F & Eo). injection Eo as -> -> ->.
    pose proof (Forall2_length F) as Hlen.
    split; [| split].
    + intros Hlt.
      destruct (fit_short_input leastsq
                  (unique Req_dec_T (map Csv.Substrate_Concentration df))
                  (map fst stats) (100, 50)) as [H | H].
      * now rewrite length_map.
      * rewrite length_map. lia.
      * rewrite H. exists ValueError. auto.
      * rewrite H. exists TypeError. auto.
    + intros Hz. exists ValueError. split; [| auto].
      destruct (zero_constants_report df epsilon path_length _ _ _ Hz E)
        as [Hm _].
      destruct stats as [| p stats'].
      * reflexivity.
      * rewrite fit_nonfinite_input; [reflexivity |].
        inversion Hm as [| m ms' Em _ Eq]. simpl. left. now symmetry.
    + intros e H.
      destruct (Fitter.fit_michaelis_menten leastsq _ _ _) as [e1 | popt] eqn:Ef;
        simpl in H; [| discriminate].
      injection H as <-. unfold Fitter.fit_michaelis_menten in Ef.
      apply curve_fit_raises in Ef. tauto.
Qed.

Lemma linspace_length (a b : R) (n : nat) : length (linspace a b n) = n.
Proof.
  destruct n as [| [| d]]; [reflexivity | reflexivity |].
  unfold linspace. rewrite length_app, length_map, length_seq. simpl. lia.
Qed.

Lemma linspace_first (a b : R) (n : nat) (d x : R) :
  (1 <= n)%nat -> nth 0 (linspace a b n) d = x -> x = a.
Proof.
  destruct n as [| [| k]]; [lia | now intros _ <- |].
  intros _. unfold linspace. simpl. intros <-. ring.
Qed.

Lemma linspace_last (a b : R) (n : nat) (d : R) :
  (2 <= n)%nat -> last (linspace a b n) d = b.
Proof.
  destruct n as [| [| k]]; [lia | lia |]. intros _.
  unfold linspace. apply last_last.
Qed.

Lemma fold_max_spec (t : list R) (a : R) :
  let m := fold_left (fun m x => if Rlt_dec m x then x else m) t a in
  (m = a \/ In m t) /\ a <= m /\ forall x, In x t -> x <= m.
Proof.
  revert a. induction t as [| y t IH]; intros a; simpl.
  - split; [now left |]. split; [lra | contradiction].
  - destruct (Rlt_dec a y) as [Hlt | Hge].
    + destruct (IH y) as (Hin & Hle & Hall). split; [| split].
      * destruct Hin as [-> | Hin]; right; [now left | now right].
      * lra.
      * intros x [<- | Hx]; [exact Hle | now apply Hall].
    + destruct (IH a) as (Hin & Hle & Hall). split; [| split].
      * destruct Hin as [E | Hin]; [now left | right; now right].
      * exact Hle.
      * intros x [<- | Hx]; [lra | now apply Hall].
Qed.

Lemma py_max_spec (l : list R) (m : R) :
  ExternalFit.py_max l = inr m -> In m l /\ forall x, In x l -> x <= m.
Proof.
  destruct l as [| a t]; [discriminate |]. unfold ExternalFit.py_max, ret.
  intros E. injection E as <-.
  destruct (fold_max_spec t a) as (Hin & Hle & Hall). split.
  - destruct Hin as [-> | Hin]; [now left | now right].
  - intros x [<- | Hx]; [exact Hle | now apply Hall].
Qed.

(** X10: the fitted curve of the CSV notebook.  [max] raises [ValueError]
    exactly when there is no concentration.  Otherwise the curve has 500
    abscissae, the first 0 and the last the largest concentration, and one
    ordinate per abscissa, the velocity [michaelis_menten] gives for it; with
    [K_m <> 0] the first ordinate is 0. *)
Theorem fitted_curve_shape (concs : list R) (V K : R) :
  (concs = [] <-> ExternalFit.fitted_curve concs (V, K) = inl ValueError)
  /\ (concs <> [] ->
      exists m S_fit v_fit,
        ExternalFit.fitted_curve concs (V, K) = inr (S_fit, v_fit)
        /\ In m concs /\ (forall S, In S concs -> S <= m)
        /\ length S_fit = 500%nat /\ length v_fit = 500%nat
        /\ nth 0 S_fit 0 = 0 /\ last S_fit 0 = m
        /\ Forall2 (fun S v => v = michaelis_menten S V K) S_fit v_fit
        /\ (K <> 0 -> nth 0 v_fit NonFin = Fin 0)).
Proof.
  assert (Hok : concs <> [] ->
      exists m S_fit v_fit,
        ExternalFit.fitted_curve concs (V, K) = inr (S_fit, v_fit)
        /\ In m concs /\ (forall S, In S concs -> S <= m)
        /\ length S_fit = 500%nat /\ length v_fit = 500%nat
        /\ nth 0 S_fit 0 = 0 /\ last S_fit 0 = m
        /\ Forall2 (fun S v => v = michaelis_menten S V K) S_fit v_fit
        /\ (K <> 0 -> nth 0 v_fit NonFin = Fin 0)).
  { intros Hne. unfold ExternalFit.fitted_curve.
    destruct (ExternalFit.py_max concs) as [e | m] eqn:Em.
    - destruct concs; [contradiction | discriminate].
    - destruct (py_max_spec concs m Em) as [Hin Hmax].
      unfold bind, ret. cbv beta iota zeta. unfold fst, snd.
      pose proof (linspace_length 0 m 500) as Hlen.
      pose proof (linspace_first 0 m 500 0) as Hfirst.
      pose proof (linspace_last 0 m 500 0) as Hlast.
      set (L := linspace 0 m 500) in *.
      exists m, L, (map (fun S => michaelis_menten S V K) L).
      split; [reflexivity |].
      split; [exact Hin |]. split; [exact Hmax |].
      split; [exact Hlen |].
      split; [rewrite length_map; exact Hlen |].
      split; [apply Hfirst; [lia | reflexivity] |].
      split; [apply Hlast; lia |].
      split.
      + clearbody L. clear Hlen Hfirst Hlast.
        induction L as [| S rest IH]; simpl; constructor;
          [reflexivity | exact IH].
      + intros HK.
        assert (E0 : nth 0 L 0 = 0) by (apply Hfirst; [lia | reflexivity]).
        destruct L as [| s0 rest]; [discriminate |]. simpl in E0. simpl.
        rewrite E0. rewrite michaelis_menten_fin by lra. f_equal. field. lra. }
  split; [| exact Hok]. split.
  - intros ->. reflexivity.
  - intros H. destruct concs as [| c t]; [reflexivity |].
    destruct Hok as (m & S_fit & v_fit & E & _); [discriminate |].
    rewrite E in H. discriminate.
Qed.

(* ----------------------------------------------------------------- *)
(** ** The order of the rows *)

Lemma filter_perm (A : Type) (p : A -> bool) (l l' : list A) :
  Permutation l l' -> Permutation (filter p l) (filter p l').
Proof.
  induction 1 as [| x l l' _ IH | x y l | l l' l'' _ IH1 _ IH2]; simpl.
  - constructor.
  - destruct (p x); [now constructor | exact IH].
  - destruct (p x), (p y); try reflexivity. constructor.
  - now transitivity (filter p l').
Qed.

Lemma rows_of_perm (df1 df2 : list Csv.Row) (S : R) :
  Permutation df1 df2 -> Permutation (rows_of df1 S) (rows_of df2 S).
Proof. apply filter_perm. Qed.

Lemma replicates_of_perm (df1 df2 : list Csv.Row) (S : R) :
  Permutation df1 df2 ->
  Permutation (replicates_of df1 S) (replicates_of df2 S).
Proof.
  intros HP. unfold replicates_of.
  apply NoDup_Permutation; try apply unique_NoDup.
  intros replicate. rewrite !unique_In.
  pose proof (Permutation_map Csv.Replicate (rows_of_perm _ _ S HP)) as Hm.
  split; intros H; eapply Permutation_in; try exact H;
    [exact Hm | now apply Permutation_sym].
Qed.

Lemma replicate_data_perm (df1 df2 : list Csv.Row) (epsilon path_length S : R)
    (replicate : Z) :
  Permutation df1 df2 ->
  Permutation (replicate_data df1 epsilon path_length S replicate)
              (replicate_data df2 epsilon path_length S replicate).
Proof.
  intros HP. unfold replicate_data. apply filter_perm, Permutation_map.
  now apply rows_of_perm.
Qed.

Lemma raising_replicate_perm (df1 df2 : list Csv.Row) :
  Permutation df1 df2 ->
  (exists S replicate,
     In replicate (replicates_of df1 S) /\
     forall r, In r (rows_of df1 S) -> Csv.Replicate r = replicate ->
               Csv.Time r = 0) ->
  exists S replicate,
    In replicate (replicates_of df2 S) /\
    forall r, In r (rows_of df2 S) -> Csv.Replicate r = replicate ->
              Csv.Time r = 0.
Proof.
  intros HP (S & replicate & Hrep & Hz). exists S, replicate. split.
  - eapply Permutation_in; [apply replicates_of_perm; exact HP | exact Hrep].
  - intros r Hr. apply Hz.
    eapply Permutation_in; [apply Permutation_sym, rows_of_perm; exact HP | exact Hr].
Qed.



(* ----------------------------------------------------------------- *)
(** ** The plate notebook: labels, cells and colour range *)

Section SortFacts.

Variable A : Type.
Variable leb : A -> A -> bool.
Hypothesis leb_total : forall a b, leb a b = true \/ leb b a = true.
Hypothesis leb_trans :
  forall a b c, leb a b = true -> leb b c = true -> leb a c = true.

Local Abbreviation le' := (fun a b : A => leb a b = true).

Lemma insert_sorted_perm (a : A) (l : list A) :
  Permutation (insert_sorted leb a l) (a :: l).
Proof.
  induction l as [| b t IH]; simpl; [reflexivity |].
  destruct (leb a b); [reflexivity |].
  rewrite IH. apply perm_swap.
Qed.

Lemma sorted_perm (l : list A) : Permutation (sorted leb l) l.
Proof.
  induction l as [| a t IH]; simpl; [constructor |].
  rewrite insert_sorted_perm. now constructor.
Qed.

Lemma insert_sorted_ordered (a : A) (l : list A) :
  StronglySorted le' l -> StronglySorted le' (insert_sorted leb a l).
Proof.
  induction 1 as [| b t Hs IH Hall]; simpl.
  - constructor; constructor.
  - destruct (leb a b) eqn:E.
    + constructor; [now constructor |]. constructor; [exact E |].
      eapply Forall_impl; [| exact Hall]. intros c Hc.
      now apply leb_trans with b.
    + constructor; [exact IH |]. apply Forall_forall. intros c Hc.
      apply insert_sorted_In in Hc. destruct Hc as [-> | Hc].
      * destruct (leb_total a b); [congruence | assumption].
      * rewrite Forall_forall in Hall. now apply Hall.
Qed.

Lemma sorted_ordered (l : list A) : StronglySorted le' (sorted leb l).
Proof.
  induction l as [| a t IH]; simpl; [constructor |].
  now apply insert_sorted_ordered.
Qed.

Lemma ordered_nth (l : list A) (d : A) (i j : nat) :
  StronglySorted le' l -> (i <= j < length l)%nat ->
  leb (nth i l d) (nth j l d) = true.
Proof.
  intros Hs. revert i j. induction Hs as [| a t Hs IH Hall]; intros i j Hij.
  - simpl in Hij. lia.
  - destruct i as [| i], j as [| j]; simpl in *.
    + destruct (leb_total a a); assumption.
    + rewrite Forall_forall in Hall. apply Hall, nth_In. lia.
    + lia.
    + apply IH. lia.
Qed.

Lemma ordered_strict (lt' : A -> A -> Prop) (l : list A) :
  (forall a b, leb a b = true -> a <> b -> lt' a b) ->
  StronglySorted le' l -> NoDup l -> StronglySorted lt' l.
Proof.
  intros Hlt Hs. induction Hs as [| a t Hs IH Hall]; intros Hnd;
    constructor.
  - apply IH. now inversion Hnd.
  - inversion Hnd as [| ? ? Hna Hnt]; subst.
    rewrite Forall_forall in *. intros b Hb. apply Hlt; [now apply Hall |].
    intros ->. contradiction.
Qed.

Lemma ordered_unique (l1 l2 : list A) :
  (forall a b, leb a b = true -> leb b a = true -> a = b) ->
  StronglySorted le' l1 -> StronglySorted le' l2 ->
  NoDup l1 -> NoDup l2 ->
  (forall a, In a l1 <-> In a l2) -> l1 = l2.
Proof.
  intros Hanti Hs1. revert l2.
  induction Hs1 as [| a1 t1 Hs1 IH Hall1]; intros l2 Hs2 Hn1 Hn2 Hin.
  - destruct l2 as [| a2 t2]; [reflexivity |].
    elim (proj2 (Hin a2) (or_introl eq_refl)).
  - destruct l2 as [| a2 t2]; [elim (proj1 (Hin a1) (or_introl eq_refl)) |].
    inversion Hs2 as [| ? ? Hs2' Hall2]; subst.
    inversion Hn1 as [| ? ? Hna1 Hnt1]; subst.
    inversion Hn2 as [| ? ? Hna2 Hnt2]; subst.
    rewrite Forall_forall in Hall1, Hall2.
    assert (E : a1 = a2).
    { destruct (proj1 (Hin a1) (or_introl eq_refl)) as [E | H1]; [now symmetry |].
      destruct (proj2 (Hin a2) (or_introl eq_refl)) as [E | H2]; [exact E |].
      apply Hanti; [now apply Hall1 | now apply Hall2]. }
    subst a2. f_equal. apply IH; try assumption.
    intros a. split; intros Ha.
    + destruct (proj1 (Hin a) (or_intror Ha)) as [<- | H]; [contradiction | exact H].
    + destruct (proj2 (Hin a) (or_intror Ha)) as [<- | H]; [contradiction | exact H].
Qed.

End SortFacts.

Lemma string_leb_trans (s1 s2 s3 : string) :
  String.leb s1 s2 = true -> String.leb s2 s3 = true -> String.leb s1 s3 = true.
Proof.
  unfold String.leb. revert s2 s3.
  induction s1 as [| c1 t1 IH]; intros [| c2 t2] [| c3 t3]; simpl; try easy.
  unfold Ascii.compare.
  destruct (N.compare_spec (N_of_ascii c1) (N_of_ascii c2));
    destruct (N.compare_spec (N_of_ascii c2) (N_of_ascii c3));
    destruct (N.compare_spec (N_of_ascii c1) (N_of_ascii c3));
    try easy; try lia.
  apply IH.
Qed.

Lemma string_leb_strict (a b : string) :
  String.leb a b = true -> a <> b -> String.ltb a b = true.
Proof.
  unfold String.leb, String.ltb. intros H N.
  destruct (String.compare a b) eqn:E; try easy.
  elim N. now apply String.compare_eq_iff.
Qed.

Lemma Zleb_total (a b : Z) : Z.leb a b = true \/ Z.leb b a = true.
Proof. rewrite !Z.leb_le. lia. Qed.

Lemma Zleb_trans (a b c : Z) :
  Z.leb a b = true -> Z.leb b c = true -> Z.leb a c = true.
Proof. rewrite !Z.leb_le. lia. Qed.

Lemma Zleb_antisym (a b : Z) :
  Z.leb a b = true -> Z.leb b a = true -> a = b.
Proof. rewrite !Z.leb_le. lia. Qed.

Lemma sorted_unique_NoDup (A : Type) (leb : A -> A -> bool)
    (dec : forall a b : A, {a = b} + {a <> b}) (l : list A) :
  NoDup (sorted leb (unique dec l)).
Proof.
  apply Permutation_NoDup with (unique dec l);
    [symmetry; apply sorted_perm | apply unique_NoDup].
Qed.

(** X15: the axis labels of the heat map.  [rows] lists the row labels of
    the table in strictly ascending string order and [cols] its ['column']
    labels in strictly ascending numeric order: every label of the table
    once, and nothing else. *)
Theorem plate_labels_ascending (abs_df : list Plate.Well) :
  (StronglySorted (fun a b => String.ltb a b = true) (Plate.rows abs_df)
   /\ forall r, In r (Plate.rows abs_df)
                <-> exists w, In w abs_df /\ Plate.row w = r)
  /\ (StronglySorted Z.lt (Plate.cols abs_df)
      /\ forall c, In c (Plate.cols abs_df)
                   <-> exists w, In w abs_df /\ Plate.column w = c).
Proof.
  unfold Plate.rows, Plate.cols. split; split.
  - apply (ordered_strict _ String.leb).
    + exact string_leb_strict.
    + apply sorted_ordered; [exact String.leb_total | exact string_leb_trans].
    + apply sorted_unique_NoDup.
  - intros r. rewrite sorted_In, unique_In, in_map_iff.
    split; intros (w & H1 & H2); exists w; tauto.
  - apply (ordered_strict _ Z.leb).
    + intros a b H N. apply Z.leb_le in H. lia.
    + apply sorted_ordered; [exact Zleb_total | exact Zleb_trans].
    + apply sorted_unique_NoDup.
  - intros c. rewrite sorted_In, unique_In, in_map_iff.
    split; intros (w & H1 & H2); exists w; tauto.
Qed.

Lemma last_valid_app (vs : list (option R)) (v : option R) :
  Plate.last_valid (vs ++ [v])
  = match v with Some x => Some x | None => Plate.last_valid vs end.
Proof.
  induction vs as [| u t IH]; simpl.
  - destruct v; reflexivity.
  - rewrite IH. destruct v; reflexivity.
Qed.

Lemma well_value_app (abs_df : list Plate.Well) (w : Plate.Well)
    (r : string) (c : Z) :
  well_value (abs_df ++ [w]) r c
  = match Plate.value w with
    | Some v =>
        if Plate.key_eqb (Plate.row w, Plate.col w) (r, c) then Some v
        else well_value abs_df r c
    | None => well_value abs_df r c
    end.
Proof.
  unfold well_value. rewrite filter_app. simpl.
  destruct (Plate.key_eqb (Plate.row w, Plate.col w) (r, c)).
  - rewrite map_app. simpl. apply last_valid_app.
  - rewrite app_nil_r. destruct (Plate.value w); reflexivity.
Qed.

Lemma well_value_app_other (abs_df : list Plate.Well) (w : Plate.Well)
    (r : string) (c : Z) :
  Plate.value w = None \/ (Plate.row w, Plate.col w) <> (r, c) ->
  well_value (abs_df ++ [w]) r c = well_value abs_df r c.
Proof.
  intros H. rewrite well_value_app. destruct (Plate.value w) as [v |]; [| reflexivity].
  destruct (Plate.key_eqb _ _) eqn:E; [| reflexivity].
  apply key_eqb_eq in E. destruct H as [H | H]; [discriminate | contradiction].
Qed.

Lemma autoscale_at (abs_df : list Plate.Well) (r : string) (c : Z) :
  In r (Plate.index (Plate.heatmap_data_autoscale abs_df)) ->
  In c (Plate.columns (Plate.heatmap_data_autoscale abs_df)) ->
  Plate.frame_at (Plate.heatmap_data_autoscale abs_df) r c
  = Some (well_value abs_df r c).
Proof.
  unfold Plate.heatmap_data_autoscale. intros Hr Hc. rewrite unstack_at.
  destruct (in_dec string_dec r _); [| contradiction].
  destruct (in_dec Z.eq_dec c _); [reflexivity | contradiction].
Qed.

Lemma heatmap_data_at (abs_df : list Plate.Well) (r : string) (c : Z) :
  In r (Plate.rows abs_df) -> In c (Plate.cols abs_df) ->
  Plate.frame_at (Plate.heatmap_data abs_df) r c
  = Some (well_value abs_df r c).
Proof.
  intros Hr Hc. unfold Plate.heatmap_data, Plate.reindex.
  rewrite frame_at_table.
  destruct (in_dec string_dec r (Plate.rows abs_df)); [| contradiction].
  destruct (in_dec Z.eq_dec c (Plate.cols abs_df)); [| contradiction].
  f_equal. rewrite unstack_at.
  destruct (in_dec string_dec r _) as [_ | Nr].
  - destruct (in_dec Z.eq_dec c _) as [_ | Nc]; [reflexivity |].
    symmetry. apply well_value_absent. intros w Hw [_ Ec]. apply Nc.
    apply unstack_columns. now exists w.
  - symmetry. apply well_value_absent. intros w Hw [Er _]. apply Nr.
    apply unstack_index. now exists w.
Qed.

Lemma rows_app (abs_df more : list Plate.Well) (r : string) :
  In r (Plate.rows abs_df) -> In r (Plate.rows (abs_df ++ more)).
Proof.
  unfold Plate.rows. rewrite !sorted_In, !unique_In, map_app, in_app_iff.
  now left.
Qed.

Lemma cols_app (abs_df more : list Plate.Well) (c : Z) :
  In c (Plate.cols abs_df) -> In c (Plate.cols (abs_df ++ more)).
Proof.
  unfold Plate.cols. rewrite !sorted_In, !unique_In, map_app, in_app_iff.
  now left.
Qed.

(** X16: what one more measurement does to the heat map.  A valid value
    appended to the table becomes the content of its well in both pivots (in
    the re-indexed one provided its ['col'] label is among the ['column']
    labels); every other cell, and every cell when the appended value is
    [nan], is left as it was. *)
Theorem last_valid_measurement_wins (abs_df : list Plate.Well)
    (w : Plate.Well) :
  (forall v, Plate.value w = Some v ->
     Plate.frame_at (Plate.heatmap_data_autoscale (abs_df ++ [w]))
                    (Plate.row w) (Plate.col w) = Some (Some v)
     /\ (In (Plate.col w) (Plate.cols (abs_df ++ [w])) ->
         Plate.frame_at (Plate.heatmap_data (abs_df ++ [w]))
                        (Plate.row w) (Plate.col w) = Some (Some v)))
  /\ (forall r c,
        Plate.value w = None \/ (Plate.row w, Plate.col w) <> (r, c) ->
        (In r (Plate.index (Plate.heatmap_data_autoscale abs_df)) ->
         In c (Plate.columns (Plate.heatmap_data_autoscale abs_df)) ->
         Plate.frame_at (Plate.heatmap_data_autoscale (abs_df ++ [w])) r c
         = Plate.frame_at (Plate.heatmap_data_autoscale abs_df) r c)
        /\ (In r (Plate.rows abs_df) -> In c (Plate.cols abs_df) ->
            Plate.frame_at (Plate.heatmap_data (abs_df ++ [w])) r c
            = Plate.frame_at (Plate.heatmap_data abs_df) r c)).
Proof.
  assert (Hw : In w (abs_df ++ [w])) by (apply in_app_iff; right; now left).
  split.
  - intros v Hv.
    assert (E : well_value (abs_df ++ [w]) (Plate.row w) (Plate.col w) = Some v).
    { rewrite well_value_app, Hv.
      now rewrite (proj2 (key_eqb_eq _ _) eq_refl). }
    split.
    + rewrite autoscale_at, E; [reflexivity | |].
      * apply unstack_index. now exists w.
      * apply unstack_columns. now exists w.
    + intros Hc. rewrite heatmap_data_at, E; [reflexivity | | exact Hc].
      unfold Plate.rows. apply sorted_In, unique_In, in_map. exact Hw.
  - intros r c Hother. split.
    + intros Hr Hc.
      assert (Hr' : In r (Plate.index (Plate.heatmap_data_autoscale (abs_df ++ [w])))).
      { apply unstack_index. apply unstack_index in Hr.
        destruct Hr as (w' & Hw' & E). exists w'.
        split; [apply in_app_iff; now left | exact E]. }
      assert (Hc' : In c (Plate.columns (Plate.heatmap_data_autoscale (abs_df ++ [w])))).
      { apply unstack_columns. apply unstack_columns in Hc.
        destruct Hc as (w' & Hw' & E). exists w'.
        split; [apply in_app_iff; now left | exact E]. }
      rewrite (autoscale_at _ r c Hr' Hc'), (autoscale_at _ r c Hr Hc).
      now rewrite well_value_app_other.
    + intros Hr Hc.
      rewrite (heatmap_data_at _ r c (rows_app _ [w] r Hr) (cols_app _ [w] c Hc)),
              (heatmap_data_at _ r c Hr Hc).
      now rewrite well_value_app_other.
Qed.

(** X17: when the ['column'] and ['col'] labels of every row agree, the
    re-index of the first heat map changes nothing: both pivots are the same
    frame. *)
Theorem pivots_agree (abs_df : list Plate.Well) :
  (forall w, In w abs_df -> Plate.column w = Plate.col w) ->
  Plate.heatmap_data abs_df = Plate.heatmap_data_autoscale abs_df.
Proof.
  intros Hcol.
  assert (Hrows : Plate.rows abs_df
                  = Plate.index (Plate.unstack (Plate.groupby_last abs_df))).
  { apply (ordered_unique _ String.leb).
    - exact String.leb_antisym.
    - apply sorted_ordered; [exact String.leb_total | exact string_leb_trans].
    - apply sorted_ordered; [exact String.leb_total | exact string_leb_trans].
    - apply sorted_unique_NoDup.
    - apply sorted_unique_NoDup.
    - intros r. rewrite unstack_index. unfold Plate.rows.
      rewrite sorted_In, unique_In, in_map_iff.
      split; intros (w & H1 & H2); exists w; tauto. }
  assert (Hcols : Plate.cols abs_df
                  = Plate.columns (Plate.unstack (Plate.groupby_last abs_df))).
  { apply (ordered_unique _ Z.leb).
    - exact Zleb_antisym.
    - apply sorted_ordered; [exact Zleb_total | exact Zleb_trans].
    - apply sorted_ordered; [exact Zleb_total | exact Zleb_trans].
    - apply sorted_unique_NoDup.
    - apply sorted_unique_NoDup.
    - intros c. rewrite unstack_columns. unfold Plate.cols.
      rewrite sorted_In, unique_In, in_map_iff.
      split; intros (w & H1 & H2); exists w.
      + split; [exact H2 |]. rewrite <- (Hcol w H2). exact H1.
      + split; [| exact H1]. rewrite (Hcol w H1). exact H2. }
  unfold Plate.heatmap_data, Plate.heatmap_data_autoscale, Plate.reindex.
  rewrite Hrows, Hcols.
  set (U := Plate.unstack (Plate.groupby_last abs_df)).
  assert (EU : U = Plate.mkFrame (Plate.index U) (Plate.columns U) (Plate.data U))
    by (destruct U; reflexivity).
  rewrite EU at 4. f_equal.
  unfold U at 4. unfold Plate.unstack. simpl.
  apply map_ext_in. intros r Hr. apply map_ext_in. intros c Hc.
  unfold U. rewrite unstack_at.
  destruct (in_dec string_dec r _); [| contradiction].
  destruct (in_dec Z.eq_dec c _); [| contradiction].
  symmetry. apply groupby_last_get.
Qed.

Lemma pivots_agree_witness :
  Plate.heatmap_data
    [Plate.mkWell "B" 2 2 (Some 1); Plate.mkWell "A" 1 1 None]
  = Plate.heatmap_data_autoscale
      [Plate.mkWell "B" 2 2 (Some 1); Plate.mkWell "A" 1 1 None].
Proof.
  apply (pivots_agree
           [Plate.mkWell "B" 2 2 (Some 1); Plate.mkWell "A" 1 1 None]).
  intros w [<- | [<- | []]]; reflexivity.
Defined.

Lemma Rleb_le (a b : R) : Rleb a b = true <-> a <= b.
Proof. unfold Rleb. destruct (Rle_dec a b); split; intros; try easy. Qed.

Lemma Rleb_total (a b : R) : Rleb a b = true \/ Rleb b a = true.
Proof. rewrite !Rleb_le. lra. Qed.

Lemma Rleb_trans (a b c : R) :
  Rleb a b = true -> Rleb b c = true -> Rleb a c = true.
Proof. rewrite !Rleb_le. lra. Qed.

Lemma fold_min_spec (t : list R) (a : R) :
  let m := fold_left (fun m y => if Rlt_dec y m then y else m) t a in
  (m = a \/ In m t) /\ m <= a /\ forall x, In x t -> m <= x.
Proof.
  revert a. induction t as [| y t IH]; intros a; simpl.
  - split; [now left |]. split; [lra | contradiction].
  - destruct (Rlt_dec y a) as [Hlt | Hge].
    + destruct (IH y) as (Hin & Hle & Hall). split; [| split].
      * destruct Hin as [-> | Hin]; right; [now left | now right].
      * lra.
      * intros x [<- | Hx]; [exact Hle | now apply Hall].
    + destruct (IH a) as (Hin & Hle & Hall). split; [| split].
      * destruct Hin as [E | Hin]; [now left | right; now right].
      * exact Hle.
      * intros x [<- | Hx]; [lra | now apply Hall].
Qed.

Lemma amin_spec (a : list R) :
  a <> [] -> exists m, amin a = inr m /\ In m a /\ forall x, In x a -> m <= x.
Proof.
  destruct a as [| x t]; [contradiction |]. intros _.
  destruct (fold_min_spec t x) as (Hin & Hle & Hall).
  eexists. split; [reflexivity |]. split.
  - destruct Hin as [-> | Hin]; [now left | now right].
  - intros y [<- | Hy]; [exact Hle | now apply Hall].
Qed.

Lemma amax_spec (a : list R) :
  a <> [] -> exists m, amax a = inr m /\ In m a /\ forall x, In x a -> x <= m.
Proof.
  destruct a as [| x t]; [contradiction |]. intros _.
  destruct (fold_max_spec t x) as (Hin & Hle & Hall).
  eexists. split; [reflexivity |]. split.
  - destruct Hin as [-> | Hin]; [now left | now right].
  - intros y [<- | Hy]; [exact Hle | now apply Hall].
Qed.

(** The two order statistics around the virtual index of a percentile, and
    the weight of the upper one. *)
Lemma percentile_unfold (a : list R) (q : nat) :
  a <> [] -> (q <= 100)%nat ->
  percentile a q
  = inr (Fin (nth (q * (length a - 1) / 100) (sorted Rleb a) 0
              + INR ((q * (length a - 1)) mod 100) / 100
                * (nth (Nat.min (q * (length a - 1) / 100 + 1) (length a - 1))
                       (sorted Rleb a) 0
                   - nth (q * (length a - 1) / 100) (sorted Rleb a) 0))).
Proof.
  intros Hne Hq. unfold percentile.
  destruct (Nat.ltb_spec 100 q) as [H | _]; [lia |].
  destruct a as [| x t]; [contradiction | reflexivity].
Qed.

Lemma sorted_nth_le (a : list R) (i j : nat) :
  (i <= j < length a)%nat ->
  nth i (sorted Rleb a) 0 <= nth j (sorted Rleb a) 0.
Proof.
  intros H. apply Rleb_le. apply ordered_nth.
  - exact Rleb_total.
  - apply sorted_ordered; [exact Rleb_total | exact Rleb_trans].
  - now rewrite (Permutation_length (sorted_perm _ Rleb a)).
Qed.

Lemma sorted_nth_In (a : list R) (i : nat) :
  (i < length a)%nat -> In (nth i (sorted Rleb a) 0) a.
Proof.
  intros H. apply (sorted_In _ Rleb). apply nth_In.
  now rewrite (Permutation_length (sorted_perm _ Rleb a)).
Qed.

Lemma weight_range (k : nat) : 0 <= INR (k mod 100) / 100 < 1.
Proof.
  pose proof (Nat.mod_upper_bound k 100 ltac:(lia)) as Hm.
  pose proof (pos_INR (k mod 100)) as H0.
  apply lt_INR in Hm. rewrite (INR_IZR_INZ 100) in Hm.
  change (Z.of_nat 100) with 100%Z in Hm.
  split.
  - apply Rmult_le_pos; lra.
  - apply Rmult_lt_reg_r with 100; [lra |]. unfold Rdiv.
    rewrite Rmult_assoc, Rinv_l by lra. lra.
Qed.

Lemma percentile_bounds (a : list R) (q : nat) (m M : R) :
  a <> [] -> (q <= 100)%nat ->
  (forall v, In v a -> m <= v <= M) ->
  exists x, percentile a q = inr (Fin x) /\ m <= x <= M.
Proof.
  intros Hne Hq Hb. rewrite (percentile_unfold a q Hne Hq).
  eexists. split; [reflexivity |].
  assert (Hn : (1 <= length a)%nat)
    by (destruct a; [contradiction | simpl; lia]).
  set (k := (q * (length a - 1))%nat).
  assert (Hk : (k <= 100 * (length a - 1))%nat)
    by (unfold k; apply Nat.mul_le_mono_r; exact Hq).
  pose proof (Nat.div_mod_eq k 100) as Hdm.
  pose proof (Nat.mod_upper_bound k 100 ltac:(lia)) as Hm.
  assert (Hlo : (k / 100 <= length a - 1)%nat) by lia.
  pose proof (weight_range k) as Hg.
  pose proof (sorted_nth_le a (k / 100) (Nat.min (k / 100 + 1) (length a - 1))
                ltac:(lia)) as Hle.
  pose proof (Hb _ (sorted_nth_In a (k / 100) ltac:(lia))) as HL.
  pose proof (Hb _ (sorted_nth_In a (Nat.min (k / 100 + 1) (length a - 1))
                      ltac:(lia))) as HH.
  set (L := nth (k / 100) (sorted Rleb a) 0) in *.
  set (H := nth (Nat.min (k / 100 + 1) (length a - 1)) (sorted Rleb a) 0) in *.
  set (g := INR (k mod 100) / 100) in *.
  clearbody L H g. nra.
Qed.

Lemma inr_Fin_inj (a b : R) :
  @inr exn pyfloat (Fin a) = inr (Fin b) -> a = b.
Proof. intros E. now injection E. Qed.

Lemma percentile_mono (a : list R) (q1 q2 : nat) (x1 x2 : R) :
  a <> [] -> (q1 <= q2 <= 100)%nat ->
  percentile a q1 = inr (Fin x1) -> percentile a q2 = inr (Fin x2) ->
  x1 <= x2.
Proof.
  intros Hne Hq.
  rewrite (percentile_unfold a q1 Hne ltac:(lia)),
          (percentile_unfold a q2 Hne ltac:(lia)).
  intros E1 E2. apply inr_Fin_inj in E1, E2. rewrite <- E1, <- E2.
  clear E1 E2 x1 x2.
  assert (Hn : (1 <= length a)%nat)
    by (destruct a; [contradiction | simpl; lia]).
  set (k1 := (q1 * (length a - 1))%nat).
  set (k2 := (q2 * (length a - 1))%nat).
  assert (Hk12 : (k1 <= k2)%nat)
    by (unfold k1, k2; apply Nat.mul_le_mono_r; lia).
  assert (Hk2 : (k2 <= 100 * (length a - 1))%nat)
    by (unfold k2; apply Nat.mul_le_mono_r; lia).
  pose proof (Nat.div_mod_eq k1 100) as Hdm1.
  pose proof (Nat.div_mod_eq k2 100) as Hdm2.
  pose proof (Nat.mod_upper_bound k1 100 ltac:(lia)) as Hm1.
  pose proof (Nat.mod_upper_bound k2 100 ltac:(lia)) as Hm2.
  pose proof (weight_range k1) as Hg1.
  pose proof (weight_range k2) as Hg2.
  pose proof (sorted_nth_le a (k1 / 100) (Nat.min (k1 / 100 + 1) (length a - 1))
                ltac:(lia)) as Hle1.
  pose proof (sorted_nth_le a (k2 / 100) (Nat.min (k2 / 100 + 1) (length a - 1))
                ltac:(lia)) as Hle2.
  destruct (Nat.eq_dec (k1 / 100) (k2 / 100)) as [Eq | Ne].
  - assert (Hmod : (k1 mod 100 <= k2 mod 100)%nat) by lia.
    apply le_INR in Hmod. rewrite <- Eq in *.
    set (L := nth (k1 / 100) (sorted Rleb a) 0) in *.
    set (H := nth (Nat.min (k1 / 100 + 1) (length a - 1)) (sorted Rleb a) 0) in *.
    assert (Hgg : INR (k1 mod 100) / 100 <= INR (k2 mod 100) / 100)
      by (unfold Rdiv; apply Rmult_le_compat_r; lra).
    set (g1 := INR (k1 mod 100) / 100) in *.
    set (g2 := INR (k2 mod 100) / 100) in *.
    clearbody L H g1 g2. nra.
  - pose proof (sorted_nth_le a (Nat.min (k1 / 100 + 1) (length a - 1)) (k2 / 100)
                  ltac:(lia)) as Hmid.
    set (L1 := nth (k1 / 100) (sorted Rleb a) 0) in *.
    set (H1 := nth (Nat.min (k1 / 100 + 1) (length a - 1)) (sorted Rleb a) 0) in *.
    set (L2 := nth (k2 / 100) (sorted Rleb a) 0) in *.
    set (H2 := nth (Nat.min (k2 / 100 + 1) (length a - 1)) (sorted Rleb a) 0) in *.
    set (g1 := INR (k1 mod 100) / 100) in *.
    set (g2 := INR (k2 mod 100) / 100) in *.
    clearbody L1 H1 L2 H2 g1 g2. nra.
Qed.

Lemma clean_values_In (abs_df : list Plate.Well) (v : R) :
  In v (Plate.clean_values abs_df)
  <-> exists w, In w abs_df /\ Plate.value w = Some v.
Proof.
  unfold Plate.clean_values. rewrite in_flat_map. split.
  - intros (w & Hw & Hv). exists w. split; [exact Hw |].
    destruct (Plate.value w) as [u |]; [| contradiction].
    destruct Hv as [-> | []]. reflexivity.
  - intros (w & Hw & Hv). exists w. split; [exact Hw |].
    rewrite Hv. now left.
Qed.

(** X18: the colour range of the auto-scaled heat map.  A table without a
    valid value gets the default range [(0, 1)].  Otherwise the range is
    finite, lies inside the span of the valid values of the table, its lower
    end is not above its upper end, and the marker on the colour bar sits
    half-way between them.  No exception is raised in either case. *)
Theorem color_range_within_data (abs_df : list Plate.Well) :
  ((forall w, In w abs_df -> Plate.value w = None) ->
   Plate.color_range abs_df = inr (Fin 0, Fin 1))
  /\ (forall w0 v0, In w0 abs_df -> Plate.value w0 = Some v0 ->
      exists lo hi vmin vmax,
        (exists w, In w abs_df /\ Plate.value w = Some lo)
        /\ (exists w, In w abs_df /\ Plate.value w = Some hi)
        /\ (forall w v, In w abs_df -> Plate.value w = Some v -> lo <= v <= hi)
        /\ Plate.color_range abs_df = inr (Fin vmin, Fin vmax)
        /\ lo <= vmin /\ vmin <= vmax /\ vmax <= hi
        /\ Plate.midpoint (Fin vmin) (Fin vmax) = Fin ((vmin + vmax) / 2)
        /\ vmin <= (vmin + vmax) / 2 <= vmax).
Proof.
  split.
  - intros Hnone. unfold Plate.color_range.
    assert (E : Plate.clean_values abs_df = []).
    { destruct (Plate.clean_values abs_df) as [| v t] eqn:E; [reflexivity |].
      assert (Hv : In v (Plate.clean_values abs_df)) by (rewrite E; now left).
      apply clean_values_In in Hv. destruct Hv as (w & Hw & Hv).
      rewrite (Hnone w Hw) in Hv. discriminate. }
    rewrite E. reflexivity.
  - intros w0 v0 Hw0 Hv0.
    assert (Hne : Plate.clean_values abs_df <> []).
    { intros E.
      assert (Hv : In v0 (Plate.clean_values abs_df))
        by (apply clean_values_In; now exists w0).
      rewrite E in Hv. contradiction. }
    destruct (amin_spec _ Hne) as (lo & Elo & Hlo & Hlow).
    destruct (amax_spec _ Hne) as (hi & Ehi & Hhi & Hupp).
    assert (Hb : forall v, In v (Plate.clean_values abs_df) -> lo <= v <= hi)
      by (intros v Hv; split; [now apply Hlow | now apply Hupp]).
    destruct (percentile_bounds _ 5 lo hi Hne ltac:(lia) Hb) as (vmin & E5 & B5).
    destruct (percentile_bounds _ 95 lo hi Hne ltac:(lia) Hb) as (vmax & E95 & B95).
    pose proof (percentile_mono _ 5 95 vmin vmax Hne ltac:(lia) E5 E95) as Hmono.
    exists lo, hi, vmin, vmax.
    split; [now apply clean_values_In |].
    split; [now apply clean_values_In |].
    split.
    { intros w v Hw Hv. apply Hb. apply clean_values_In. now exists w. }
    split.
    { unfold Plate.color_range.
      destruct (Nat.ltb_spec 0 (length (Plate.clean_values abs_df))) as [_ | H0].
      - rewrite Elo, Ehi, E5, E95. reflexivity.
      - destruct (Plate.clean_values abs_df); [now elim Hne | simpl in H0; lia]. }
    split; [lra |]. split; [exact Hmono |]. split; [lra |].
    split.
    { unfold Plate.midpoint. simpl.
      destruct (Req_dec_T 2 0); [lra | reflexivity]. }
    lra.
Qed.
